(** * Quantum++ number theory (include/number_theory.h): a shallow embedding

    The C++ functions of [namespace qpp] are embedded as Rocq functions.

    - [bigint] is embedded as [Z] and [idx] as [nat] (see below).
      C++ [/] and [%] truncate toward zero: they are [Z.quot] and [Z.rem].
    - A [throw] is the [Throw] outcome carrying the exception that the
      source constructs.  [while] loops whose trip count is not syntactically
      bounded are run with fuel; running out of fuel is the outcome
      [Diverge], and the theorems below show it is never produced on the
      inputs they speak about.
    - The global random generator [rand(a, b)] is a random source that is
      threaded through the calls as the number of draws made so far. *)

From Stdlib Require Import ZArith Lia List Bool String Znumtheory Zpow_facts.
From Stdlib Require Import Floats Sorted Zmod.Zmod.
From stdpp Require Import base list.
Import ListNotations.
Local Open Scope Z_scope.

(** ** Types declared outside the header *)

(** Modelled from the spec: [bigint] is declared outside this header.  The
    specification's data model describes it as a signed integer of
    arbitrary (or sufficiently wide) range on which the arithmetic of this
    module is exact, so it is [Z] and no wrap-around is modelled. *)
Abbreviation bigint := Z (only parsing).

(** Modelled from the spec: [idx] is declared outside this header; it is
    the unsigned type of sizes, counts and indices, here [nat]. *)
Abbreviation idx := nat (only parsing).

(** ** Exceptions and outcomes *)

(** Modelled from the spec: the class [Exception] is declared outside this
    header.  These are the error kinds the header throws, under the names it
    uses for them ([Exception::Type::...]), and the custom-message form
    [Exception(where, what)]. *)
Inductive ExceptionType : Type :=
| ZERO_SIZE
| OUT_OF_RANGE
| PERM_INVALID
| CUSTOM_EXCEPTION (what : string).

Record Exception : Type := mkException {
  exc_where : string;
  exc_type : ExceptionType
}.

Inductive outcome (A : Type) : Type :=
| Ret (a : A)
| Throw (e : Exception)
| Diverge.
Arguments Ret {A} a.
Arguments Throw {A} e.
Arguments Diverge {A}.

#[global] Instance outcome_ret : MRet outcome := fun _ a => Ret a.
#[global] Instance outcome_bind : MBind outcome := fun _ _ f m =>
  match m with
  | Ret a => f a
  | Throw e => Throw e
  | Diverge => Diverge
  end.

(** The value of a fuelled loop: [None] means the fuel ran out. *)
Definition run {A : Type} (r : option A) : outcome A :=
  match r with
  | Some a => Ret a
  | None => Diverge
  end.

(** ** Greatest common divisor, least common multiple *)

(** The loop of [gcd]:
    [while (n) { result = n; n = m % result; m = result; }]. *)
Fixpoint gcd_loop (fuel : nat) (m n result : bigint) : option bigint :=
  match fuel with
  | O => None
  | S fuel' =>
      if n =? 0 then Some result
      else gcd_loop fuel' n (Z.rem m n) n
  end.

Definition gcd (m n : bigint) : outcome bigint :=
  if (m =? 0) && (n =? 0) then
    Throw (mkException "qpp::gcd()" OUT_OF_RANGE)
  else if (m =? 0) || (n =? 0) then
    Ret (Z.max (Z.abs m) (Z.abs n))
  else
    result ← run (gcd_loop (S (Z.abs_nat n)) m n 1);
    Ret (if 0 <? result then result else - result).

Definition lcm (m n : bigint) : outcome bigint :=
  if (m =? 0) && (n =? 0) then
    Throw (mkException "qpp::lcm()" OUT_OF_RANGE)
  else
    g ← gcd m n;
    let result := Z.quot (m * n) g in
    Ret (if 0 <? result then result else - result).

(** ** Extended Euclid and modular inverse *)

(** The loop of [egcd]; the state is [(m, n, a1, a2, b1, b2)] and the loop
    hands back [(m, a2, b2)], which is all the code reads afterwards. *)
Fixpoint egcd_loop (fuel : nat) (m n a1 a2 b1 b2 : bigint)
  : option (bigint * bigint * bigint) :=
  match fuel with
  | O => None
  | S fuel' =>
      if n =? 0 then Some (m, a2, b2)
      else
        let q := Z.quot m n in
        let r := m - q * n in
        let a := a2 - q * a1 in
        let b := b2 - q * b1 in
        egcd_loop fuel' n r a a1 b b1
  end.

Definition egcd (m n : bigint) : outcome (bigint * bigint * bigint) :=
  if (m =? 0) && (n =? 0) then
    Throw (mkException "qpp::egcd()" OUT_OF_RANGE)
  else
    '(c, a, b) ← run (egcd_loop (S (Z.abs_nat n)) m n 0 1 1 0);
    if c <? 0 then Ret (- a, - b, - c) else Ret (a, b, c).

Definition modinv (a p : bigint) : outcome bigint :=
  if (a <=? 0) || (p <=? 0) then
    Throw (mkException "qpp::modinv()" OUT_OF_RANGE)
  else
    '(x, y, gcd_ap) ← egcd p a;
    if negb (gcd_ap =? 1) then
      Throw (mkException "qpp::modinv()" OUT_OF_RANGE)
    else
      Ret (if 0 <? y then y else y + p).

(** ** Modular arithmetic kernel ([namespace internal]) *)

(** Fuel for a loop that halves [b] until it is no longer positive: two more
    than the position of the leading bit of [b]. *)
Definition halving_fuel (b : Z) : nat := S (S (Z.to_nat (Z.log2 b))).

Module internal.

(** The loop of [internal::mulmod].  [b & 1] is [Z.land b 1] and
    [b >>= 1] is [Z.shiftr b 1]. *)
Fixpoint mulmod_loop (fuel : nat) (a b m r : bigint) : option bigint :=
  match fuel with
  | O => None
  | S fuel' =>
      if 0 <? b then
        let r := if negb (Z.land b 1 =? 0)
                 then (if a <? m - r then r + a else r + a - m)
                 else r in
        let b := Z.shiftr b 1 in
        let a := if negb (b =? 0)
                 then (if a <? m - a then a + a else a + a - m)
                 else a in
        mulmod_loop fuel' a b m r
      else Some r
  end.

(** [a %= m] with [m == 0] is undefined in the source; [Z.rem a 0] is [a]. *)
Definition mulmod (a b m : bigint) : outcome bigint :=
  let a := Z.rem a m in
  let b := Z.rem b m in
  run (mulmod_loop (halving_fuel b) a b m 0).

(** The loop of [internal::mulmod1]. *)
Fixpoint mulmod1_loop (fuel : nat) (a b mod_ res : bigint) : option bigint :=
  match fuel with
  | O => None
  | S fuel' =>
      if 0 <? b then
        let res := if Z.rem b 2 =? 1 then Z.rem (res + a) mod_ else res in
        let a := Z.rem (a * 2) mod_ in
        let b := Z.quot b 2 in
        mulmod1_loop fuel' a b mod_ res
      else Some res
  end.

Definition mulmod1 (a b mod_ : bigint) : outcome bigint :=
  let a := Z.rem a mod_ in
  res ← run (mulmod1_loop (halving_fuel b) a b mod_ 0);
  Ret (Z.rem res mod_).

(** Modelled from the spec: [internal::_check_perm] is called by this
    header but defined elsewhere in the library.  The specification's data
    model calls a sequence of length N a permutation when it is a bijection
    on {0, ..., N-1}: each value in range, each value appearing exactly
    once. *)
Definition _check_perm (v : list idx) : bool :=
  bool_decide (Forall (fun x => (x < length v)%nat) v /\ NoDup v).

End internal.

(** The loop of [modpow]: [for (; n > 0; n /= 2)]. *)
Fixpoint modpow_loop (fuel : nat) (a n p result : bigint) : outcome bigint :=
  match fuel with
  | O => Diverge
  | S fuel' =>
      if 0 <? n then
        result ← (if negb (Z.rem n 2 =? 0)
                  then t ← internal.mulmod1 result a p; Ret (Z.rem t p)
                  else Ret result);
        a ← (t ← internal.mulmod1 a a p; Ret (Z.rem t p));
        modpow_loop fuel' a (Z.quot n 2) p result
      else Ret result
  end.

Definition modpow (a n p : bigint) : outcome bigint :=
  if (a <? 0) || (n <? 0) || (p <? 1) then
    Throw (mkException "qpp::modpow()" OUT_OF_RANGE)
  else if (a =? 0) && (n =? 0) then
    Throw (mkException "qpp::modpow()" OUT_OF_RANGE)
  else if (a =? 0) && (0 <? n) then Ret 0
  else if (n =? 0) && (p =? 1) then Ret 0
  else modpow_loop (halving_fuel n) a n p 1.

(** ** Prime factor decomposition *)

(** The inner loop of [factors]:
    [while (n % d == 0) { result.push_back(d); n /= d; }];
    it hands back the updated [n] and [result]. *)
Fixpoint factors_inner (fuel : nat) (n d : bigint) (result : list bigint)
  : option (bigint * list bigint) :=
  match fuel with
  | O => None
  | S fuel' =>
      if Z.rem n d =? 0
      then factors_inner fuel' (Z.quot n d) d (result ++ [d])
      else Some (n, result)
  end.

(** The outer loop of [factors]: [while (n > 1) { ... }], left through
    [break] once [d * d > n]. *)
Fixpoint factors_outer (fuel : nat) (n d : bigint) (result : list bigint)
  : option (list bigint) :=
  match fuel with
  | O => None
  | S fuel' =>
      if 1 <? n then
        match factors_inner (Z.to_nat n) n d result with
        | None => None
        | Some (n, result) =>
            let d := d + 1 in
            if n <? d * d
            then Some (if 1 <? n then result ++ [n] else result)
            else factors_outer fuel' n d result
        end
      else Some result
  end.

Definition factors (n : bigint) : outcome (list bigint) :=
  let n := if n <? 0 then - n else n in
  if (n =? 0) || (n =? 1) then
    Throw (mkException "qpp::factors()" OUT_OF_RANGE)
  else
    run (factors_outer (Z.to_nat n) n 2 []).

(** The product of the elements of a list. *)
Definition product (l : list Z) : Z := fold_right Z.mul 1 l.

(** ** Permutation algebra *)

(** [std::vector<idx> result(perm.size())]: a vector of zeros.  The loops
    write [result[j] = v] through [<[j:=v]>]; a write outside the vector is
    undefined in the source and leaves the list unchanged here.  [perm[i]]
    is the total lookup [perm !!! i]. *)
Definition invperm (perm : list idx) : outcome (list idx) :=
  if negb (internal._check_perm perm) then
    Throw (mkException "qpp::invperm()" PERM_INVALID)
  else
    Ret (foldl (fun result i => <[perm !!! i := i]> result)
               (replicate (length perm) 0%nat)
               (seq 0 (length perm))).

Definition compperm (perm sigma : list idx) : outcome (list idx) :=
  if negb (internal._check_perm perm) then
    Throw (mkException "qpp::compperm()" PERM_INVALID)
  else if negb (internal._check_perm sigma) then
    Throw (mkException "qpp::compperm()" PERM_INVALID)
  else if negb (length perm =? length sigma)%nat then
    Throw (mkException "qpp::compperm()" PERM_INVALID)
  else
    Ret (foldl (fun result i => <[i := perm !!! (sigma !!! i)]> result)
               (replicate (length perm) 0%nat)
               (seq 0 (length perm))).

(** ** Continued fractions *)

(** The terms of a continued fraction are C++ [int]s; their conversion to
    [double] is exact. *)
Definition int_to_double (z : Z) : float :=
  if z <? 0
  then PrimFloat.opp (PrimFloat.of_uint63 (Uint63.of_Z (- z)))
  else PrimFloat.of_uint63 (Uint63.of_Z z).

(** [for (idx i = start; i != 0; --i) tmp = 1. / (tmp + cf[i]);] *)
Fixpoint contfrac2x_loop (cf : list Z) (i : idx) (tmp : float) : float :=
  match i with
  | O => tmp
  | S i' =>
      contfrac2x_loop cf i'
        (PrimFloat.div 1%float (PrimFloat.add tmp (int_to_double (cf !!! i))))
  end.

(** [contfrac2x(cf, n)] *)
Definition contfrac2x (cf : list Z) (n : idx) : outcome float :=
  if (length cf =? 0)%nat then
    Throw (mkException "qpp::contfrac2x()" ZERO_SIZE)
  else if (n =? 0)%nat then
    Throw (mkException "qpp::contfrac2x()" OUT_OF_RANGE)
  else
    let n := if (length cf <? n)%nat then length cf else n in
    if (n =? 1)%nat then Ret (int_to_double (cf !!! 0%nat))
    else
      let tmp := PrimFloat.div 1%float (int_to_double (cf !!! (n - 1)%nat)) in
      let tmp := contfrac2x_loop cf (n - 2) tmp in
      Ret (PrimFloat.add (int_to_double (cf !!! 0%nat)) tmp).

(** [contfrac2x(cf)], the overload that takes every term. *)
Definition contfrac2x_all (cf : list Z) : outcome float :=
  if (length cf =? 0)%nat then
    Throw (mkException "qpp::contfrac2x()" ZERO_SIZE)
  else if (length cf =? 1)%nat then Ret (int_to_double (cf !!! 0%nat))
  else
    let tmp := PrimFloat.div 1%float
                 (int_to_double (cf !!! (length cf - 1)%nat)) in
    let tmp := contfrac2x_loop cf (length cf - 2) tmp in
    Ret (PrimFloat.add (int_to_double (cf !!! 0%nat)) tmp).

(** ** The random source *)

(** [rand(a, b)] draws from a global generator that lives outside this
    header.  A run of the program fixes, for each draw, the value handed
    back; a source maps the number of the draw and the requested bounds to
    that value, and the number of draws made so far is the state threaded
    through the code.  A source that honours the requested range is
    [in_range].  What [rand] does when it is asked for an empty range is
    not visible from this header: here it hands back what the source says,
    and [in_range] does not constrain it. *)
Definition RandomSource : Type := nat -> bigint -> bigint -> bigint.

Definition in_range (src : RandomSource) : Prop :=
  forall i lo hi, lo <= hi -> lo <= src i lo hi <= hi.

(** Computations that draw random numbers and may throw. *)
Definition Rand (A : Type) : Type := nat -> outcome (A * nat).

#[global] Instance Rand_ret : MRet Rand := fun _ a i => Ret (a, i).
#[global] Instance Rand_bind : MBind Rand := fun _ _ f m i =>
  match m i with
  | Ret (a, i') => f a i'
  | Throw e => Throw e
  | Diverge => Diverge
  end.

Definition lift {A : Type} (m : outcome A) : Rand A := fun i =>
  match m with
  | Ret a => Ret (a, i)
  | Throw e => Throw e
  | Diverge => Diverge
  end.

Definition rand (src : RandomSource) (a b : bigint) : Rand bigint :=
  fun i => Ret (src i a b, S i).

(** ** Primality test *)

(** [for (bigint i = n - 1; i % 2 == 0; ++u, i /= 2);] hands back [u]. *)
Fixpoint isprime_u_loop (fuel : nat) (i u : bigint) : option bigint :=
  match fuel with
  | O => None
  | S fuel' =>
      if Z.rem i 2 =? 0 then isprime_u_loop fuel' (Z.quot i 2) (u + 1)
      else Some u
  end.

(** How the squaring loop of a round is left: through [return false],
    through [jump = true; break], or by running to completion. *)
Inductive squaring_exit : Type :=
| SqComposite
| SqJump
| SqCompleted.

(** [for (idx j = 0; j < static_cast<idx>(u); ++j) { ... }], as the number
    of rounds still to run. *)
Fixpoint squaring_loop (rounds : nat) (z n : bigint) : squaring_exit :=
  match rounds with
  | O => SqCompleted
  | S rounds' =>
      let z := Z.rem (Z.rem z n * Z.rem z n) n in
      if z =? 1 then SqComposite
      else if z =? n - 1 then SqJump
      else squaring_loop rounds' z n
  end.

Section WithRandomSource.

Variable src : RandomSource.

(** The [k] rounds of Miller-Rabin: [for (idx i = 0; i < k; ++i) { ... }]. *)
Fixpoint isprime_rounds (k : idx) (n u r : bigint) : Rand bool :=
  match k with
  | O => mret true
  | S k' =>
      a ← rand src 2 (n - 2);
      z ← lift (modpow a r n);
      if (z =? 1) || (z =? n - 1) then isprime_rounds k' n u r
      else
        match squaring_loop (Z.to_nat u) z n with
        | SqComposite => mret false
        | SqJump => isprime_rounds k' n u r
        | SqCompleted => mret false
        end
  end.

(** [std::llround(std::pow(2, u))] is the integer [2 ^ u]. *)
Definition isprime (n : bigint) (k : idx) : Rand bool :=
  let n := if n <? 0 then - n else n in
  if n <? 2 then
    lift (Throw (mkException "qpp::isprime()" OUT_OF_RANGE))
  else if (n =? 2) || (n =? 3) then mret true
  else
    x ← rand src 2 (n - 1);
    f ← lift (modpow x (n - 1) n);
    if negb (f =? 1) then mret false
    else
      u ← lift (run (isprime_u_loop (halving_fuel (n - 1)) (n - 1) 0));
      let r := Z.quot (n - 1) (2 ^ u) in
      isprime_rounds k n u r.

(** The default argument [k = 80]. *)
Definition isprime_default_k : idx := 80.

End WithRandomSource.

(** ** Random primes *)

(** How the attempt loop of [randprime] is left: through one of its
    [return candidate] statements, or because [i < N] failed, with the
    final value of [i]. *)
Inductive attempts_exit : Type :=
| Accepted (candidate : bigint)
| Exhausted (i : idx).

Section RandPrime.

Variable src : RandomSource.

(** [for (; i < static_cast<bigint>(N); ++i) { ... }] *)
Fixpoint randprime_loop (fuel : nat) (i N : idx) (a b : bigint)
  : Rand attempts_exit :=
  match fuel with
  | O => lift Diverge
  | S fuel' =>
      if (i <? N)%nat then
        candidate ← rand src a b;
        if Z.abs candidate <? 2 then randprime_loop fuel' (S i) N a b
        else if Z.abs candidate =? 2 then mret (Accepted candidate)
        else
          x ← rand src 2 (candidate - 1);
          f ← lift (modpow x (candidate - 1) candidate);
          if negb (f =? 1) then randprime_loop fuel' (S i) N a b
          else
            accepted ← isprime src candidate isprime_default_k;
            if accepted : bool then mret (Accepted candidate)
            else randprime_loop fuel' (S i) N a b
      else mret (Exhausted i)
  end.

Definition randprime (a b : bigint) (N : idx) : Rand bigint :=
  if b <? a then
    lift (Throw (mkException "qpp::randprime()" OUT_OF_RANGE))
  else
    e ← randprime_loop (S N) 0 N a b;
    match e with
    | Accepted candidate => mret candidate
    | Exhausted i =>
        if (i =? N)%nat then
          lift (Throw (mkException "qpp::randprime()"
                         (CUSTOM_EXCEPTION "Prime not found!")))
        else mret 0
    end.

(** The default argument [N = 1000]. *)
Definition randprime_default_N : idx := 1000.

End RandPrime.

(** ** The Miller-Rabin procedure as the specification words it *)

(** "Write n - 1 = 2^u * r with r odd": the number of trailing zero bits
    and what is left of the number once they are dropped. *)
Fixpoint trailing_zeros (p : positive) : Z :=
  match p with
  | xO p' => Z.succ (trailing_zeros p')
  | _ => 0
  end.

Fixpoint odd_part (p : positive) : positive :=
  match p with
  | xO p' => odd_part p'
  | _ => p
  end.

Definition decompose_spec (m : Z) : Z * Z :=
  match m with
  | Zpos p => (trailing_zeros p, Zpos (odd_part p))
  | _ => (0, m)
  end.

(** "Square z modulo n up to [times] times: if at any point z == 1, declare
    composite; if z == n-1, this witness passes.  If the squaring loop
    completes without reaching n-1, declare composite."  The result says
    whether the witness passes. *)
Fixpoint squaring_spec (times : nat) (z n : Z) : bool :=
  match times with
  | O => false
  | S times' =>
      let z := (z * z) mod n in
      if z =? 1 then false
      else if z =? n - 1 then true
      else squaring_spec times' z n
  end.

Section SpecWithRandomSource.

Variable src : RandomSource.

(** Step 5, with the squaring repeated up to [u - 1] times. *)
Fixpoint isprime_rounds_spec (k : nat) (n u r : Z) : Rand bool :=
  match k with
  | O => mret true
  | S k' =>
      a ← rand src 2 (n - 2);
      z ← lift (modpow a r n);
      if (z =? 1) || (z =? n - 1) then isprime_rounds_spec k' n u r
      else if squaring_spec (Z.to_nat (u - 1)) z n
           then isprime_rounds_spec k' n u r
           else mret false
  end.

(** Steps 1 to 6 of the specification's primality oracle. *)
Definition isprime_spec (n : Z) (k : nat) : Rand bool :=
  let n := Z.abs n in
  if n <? 2 then
    lift (Throw (mkException "qpp::isprime()" OUT_OF_RANGE))
  else if (n =? 2) || (n =? 3) then mret true
  else
    x ← rand src 2 (n - 1);
    f ← lift (modpow x (n - 1) n);
    if negb (f =? 1) then mret false
    else
      let '(u, r) := decompose_spec (n - 1) in
      isprime_rounds_spec k n u r.

End SpecWithRandomSource.

(** ** Bounded checks *)

(** [Z_forallb count lo P] checks [P] on [lo], [lo + 1], ...,
    [lo + count - 1]. *)
Fixpoint Z_forallb (count : nat) (lo : Z) (P : Z -> bool) : bool :=
  match count with
  | O => true
  | S count' => P lo && Z_forallb count' (lo + 1) P
  end.

(** Whether [isprime]'s Fermat filter turns [n] down on the draw [x]. *)
Definition fermat_rejects (n x : Z) : bool :=
  negb (Zpow_mod x (n - 1) n =? 1).

(** Whether a Miller-Rabin round of [isprime] turns [n] down on the
    draw [a]. *)
Definition round_rejects (n u r a : Z) : bool :=
  match modpow a r n with
  | Ret z =>
      negb ((z =? 1) || (z =? n - 1))
      && match squaring_loop (Z.to_nat u) z n with
         | SqJump => false
         | _ => true
         end
  | _ => false
  end.

(** ** Loop invariants *)

(** What the loops of [factors] maintain: the factors found so far multiply
    with the remaining [n] to the original [N], they are primes in
    non-decreasing order bounded by the trial divisor [d], and [n] has no
    divisor strictly between 1 and [d]. *)
Definition factors_inv (N n d : Z) (result : list Z) : Prop :=
  1 <= n /\ 2 <= d
  /\ product result * n = N
  /\ Forall Z.prime result
  /\ StronglySorted Z.le result
  /\ Forall (fun x => x <= d) result
  /\ (forall k, 1 < k < d -> ~ (k | n)).

(** ** Greatest common divisor and least common multiple of a list *)

(** [for (idx i = 1; i < ns.size(); ++i) result = gcd(result, ns[i]);]
    run over the elements [ns[1]], [ns[2]], ... in order. *)
Fixpoint gcd_list_loop (rest : list bigint) (result : bigint)
  : outcome bigint :=
  match rest with
  | [] => Ret result
  | x :: rest' => result ← gcd result x; gcd_list_loop rest' result
  end.

(** [gcd(const std::vector<bigint>& ns)] *)
Definition gcd_list (ns : list bigint) : outcome bigint :=
  match ns with
  | [] => Throw (mkException "qpp::gcd()" ZERO_SIZE)
  | n0 :: rest =>
      result ← gcd_list_loop rest n0;
      Ret (if 0 <? result then result else - result)
  end.

(** [for (idx i = 1; i < ns.size(); ++i) result = lcm(result, ns[i]);] *)
Fixpoint lcm_list_loop (rest : list bigint) (result : bigint)
  : outcome bigint :=
  match rest with
  | [] => Ret result
  | x :: rest' => result ← lcm result x; lcm_list_loop rest' result
  end.

(** [lcm(const std::vector<bigint>& ns)]; [std::find(..., 0)] is the
    search for an element equal to 0. *)
Definition lcm_list (ns : list bigint) : outcome bigint :=
  match ns with
  | [] => Throw (mkException "qpp::lcm()" ZERO_SIZE)
  | [n0] => Ret n0
  | n0 :: rest =>
      if existsb (fun x => x =? 0) ns then
        Throw (mkException "qpp::lcm()" OUT_OF_RANGE)
      else
        result ← lcm_list_loop rest n0;
        Ret (if 0 <? result then result else - result)
  end.

(** ** Permutations *)

(** A list of length N is a permutation when its values are below N and
    pairwise distinct; this is what [internal::_check_perm] decides. *)
Definition is_perm (p : list idx) : Prop :=
  Forall (fun x => (x < length p)%nat) p /\ NoDup p.

(** * Theorems *)

Example gcd_48_18 : gcd 48 18 = Ret 6.
Proof. reflexivity. Qed.

Example egcd_3_5 : egcd 3 5 = Ret (2, -1, 1).
Proof. reflexivity. Qed.

Example modinv_5_3 : modinv 5 3 = Ret 2.
Proof. reflexivity. Qed.

Example modinv_1_1 : modinv 1 1 = Ret 1.
Proof. reflexivity. Qed.

Example lcm_4_6 : lcm 4 6 = Ret 12.
Proof. reflexivity. Qed.

(** ** Outcomes *)

Lemma bind_Ret {A B : Type} (f : A -> outcome B) (a : A) :
  (Ret a ≫= f) = f a.
Proof. reflexivity. Qed.

(** ** Euclid's algorithm *)

Lemma Zgcd_rem (m n : Z) : Z.gcd n (Z.rem m n) = Z.gcd m n.
Proof.
  pose proof (Z.quot_rem' m n) as E.
  replace (Z.rem m n) with (m + (- Z.quot m n) * n) by lia.
  rewrite Z.gcd_add_mult_diag_r. apply Z.gcd_comm.
Qed.

Lemma gcd_loop_spec (fuel : nat) : forall m n result,
  Z.abs n < Z.of_nat fuel ->
  exists g, gcd_loop fuel m n result = Some g
            /\ (n = 0 -> g = result)
            /\ (n <> 0 -> Z.abs g = Z.gcd m n).
Proof.
  induction fuel as [|fuel IH]; intros m n result Hfuel; [lia|].
  cbn [gcd_loop]. destruct (Z.eqb_spec n 0) as [->|Hn].
  - exists result. split; [reflexivity|]. split; [reflexivity | congruence].
  - pose proof (Z.rem_bound_abs m n Hn) as Hr.
    destruct (IH n (Z.rem m n) n) as (g & Hg & Hz & Hnz); [lia|].
    exists g. split; [exact Hg|]. split; [contradiction|]. intros _.
    rewrite <- Zgcd_rem.
    destruct (Z.eq_dec (Z.rem m n) 0) as [E|E].
    + rewrite E, Z.gcd_0_r, (Hz E). reflexivity.
    + exact (Hnz E).
Qed.

(** On every input that is not (0, 0) the code computes the mathematical
    greatest common divisor. *)
Lemma gcd_Zgcd (m n : Z) : m <> 0 \/ n <> 0 -> gcd m n = Ret (Z.gcd m n).
Proof.
  intros Hmn. unfold gcd.
  destruct (Z.eqb_spec m 0) as [->|Hm]; cbn [andb orb].
  - destruct (Z.eqb_spec n 0) as [->|Hn]; [lia|].
    f_equal. pose proof (Z.gcd_0_l n). lia.
  - destruct (Z.eqb_spec n 0) as [->|Hn].
    + f_equal. pose proof (Z.gcd_0_r m). lia.
    + destruct (gcd_loop_spec (S (Z.abs_nat n)) m n 1) as (g & -> & _ & Hg).
      { rewrite Nat2Z.inj_succ, Zabs2Nat.id_abs. lia. }
      specialize (Hg Hn). cbn. f_equal.
      destruct (Z.ltb_spec 0 g); lia.
Qed.

Lemma gcd_0_0 : gcd 0 0 = Throw (mkException "qpp::gcd()" OUT_OF_RANGE).
Proof. reflexivity. Qed.

(** C1: for non-negative [m], [n], not both zero, [gcd m n] returns a
    non-negative common divisor of [m] and [n] that no common divisor
    exceeds; when one argument is zero it is the absolute value of the
    other. *)
Theorem gcd_correct (m n : Z) :
  0 <= m -> 0 <= n -> m <> 0 \/ n <> 0 ->
  exists g, gcd m n = Ret g
    /\ 0 <= g
    /\ (g | m) /\ (g | n)
    /\ (forall d, (d | m) -> (d | n) -> d <= g)
    /\ (m = 0 -> g = Z.abs n)
    /\ (n = 0 -> g = Z.abs m).
Proof.
  intros Hm Hn Hmn. exists (Z.gcd m n).
  split; [apply gcd_Zgcd, Hmn|].
  split; [apply Z.gcd_nonneg|].
  split; [apply Z.gcd_divide_l|].
  split; [apply Z.gcd_divide_r|].
  split.
  - intros d Hdm Hdn.
    assert (0 < Z.gcd m n).
    { pose proof (Z.gcd_nonneg m n).
      destruct (Z.eq_dec (Z.gcd m n) 0) as [E|E]; [|lia].
      apply Z.gcd_eq_0 in E. lia. }
    apply Z.divide_pos_le; [assumption|]. apply Z.gcd_greatest; assumption.
  - split; intros ->; [apply Z.gcd_0_l | apply Z.gcd_0_r].
Qed.

Lemma gcd_correct_witness :
  exists g, gcd 48 18 = Ret g
    /\ 0 <= g
    /\ (g | 48) /\ (g | 18)
    /\ (forall d, (d | 48) -> (d | 18) -> d <= g)
    /\ (48 = 0 -> g = Z.abs 18)
    /\ (18 = 0 -> g = Z.abs 48).
Proof. apply (gcd_correct 48 18); lia. Defined.

(** ** Extended Euclid *)

(** The co-factor invariant of the [egcd] loop: both remainders are integer
    combinations of the original arguments [M] and [N]. *)
Lemma egcd_loop_spec (M N : Z) (fuel : nat) : forall m n a1 a2 b1 b2,
  Z.abs n < Z.of_nat fuel ->
  a2 * M + b2 * N = m ->
  a1 * M + b1 * N = n ->
  exists c a b, egcd_loop fuel m n a1 a2 b1 b2 = Some (c, a, b)
                /\ a * M + b * N = c
                /\ Z.abs c = Z.gcd m n.
Proof.
  induction fuel as [|fuel IH]; intros m n a1 a2 b1 b2 Hfuel H2 H1; [lia|].
  cbn [egcd_loop]. destruct (Z.eqb_spec n 0) as [->|Hn].
  - exists m, a2, b2. rewrite Z.gcd_0_r. auto.
  - cbv zeta.
    pose proof (Z.rem_bound_abs m n Hn) as Hr.
    pose proof (Z.quot_rem' m n) as Hqr.
    assert (Er : m - Z.quot m n * n = Z.rem m n) by lia.
    destruct (IH n (m - Z.quot m n * n) (a2 - Z.quot m n * a1) a1
                (b2 - Z.quot m n * b1) b1) as (c & a & b & E & Hab & Hc).
    + rewrite Er. lia.
    + exact H1.
    + rewrite <- H2, <- H1. ring.
    + exists c, a, b. rewrite Er, Zgcd_rem in Hc. auto.
Qed.

Lemma egcd_0_0 : egcd 0 0 = Throw (mkException "qpp::egcd()" OUT_OF_RANGE).
Proof. reflexivity. Qed.

Lemma egcd_Zgcd (m n : Z) :
  m <> 0 \/ n <> 0 ->
  exists a b, egcd m n = Ret (a, b, Z.gcd m n) /\ a * m + b * n = Z.gcd m n.
Proof.
  intros Hmn. unfold egcd.
  replace ((m =? 0) && (n =? 0)) with false
    by (symmetry; apply andb_false_iff; rewrite !Z.eqb_neq; tauto).
  destruct (egcd_loop_spec m n (S (Z.abs_nat n)) m n 0 1 1 0)
    as (c & a & b & -> & Hab & Hc); [|ring|ring|].
  { rewrite Nat2Z.inj_succ, Zabs2Nat.id_abs. lia. }
  cbn. destruct (Z.ltb_spec c 0).
  - exists (- a), (- b). split; [do 2 f_equal|]; lia.
  - exists a, b. split; [do 2 f_equal|]; lia.
Qed.



(** ** Modular inverse *)

(** Size of the second co-factor.  With positive arguments the co-factors
    [b1], [b2] alternate in sign and [|b1| * m + |b2| * n] stays equal to
    the original first argument [M]; hence the co-factor handed back is
    smaller than [M] in absolute value as soon as [2 <= M]. *)
Lemma egcd_loop_bound (M : Z) (fuel : nat) : forall m n a1 a2 b1 b2 c a b,
  2 <= M -> 0 < m -> 0 <= n ->
  Z.abs b1 * m + Z.abs b2 * n = M ->
  b1 * b2 <= 0 ->
  Z.abs b2 < M ->
  (b2 = 0 -> 2 <= m) ->
  egcd_loop fuel m n a1 a2 b1 b2 = Some (c, a, b) ->
  Z.abs b < M.
Proof.
  induction fuel as [|fuel IH];
    intros m n a1 a2 b1 b2 c a b HM Hm Hn Hinv Hsign Hb2 Hzero E;
    [discriminate|].
  cbn [egcd_loop] in E. destruct (Z.eqb_spec n 0) as [->|Hn0].
  - injection E as <- <- <-. exact Hb2.
  - cbv zeta in E.
    pose proof (Z.quot_rem' m n) as Hqr.
    pose proof (Z.rem_bound_pos m n ltac:(lia) ltac:(lia)) as Hr.
    pose proof (Z.quot_pos m n ltac:(lia) ltac:(lia)) as Hq.
    set (q := Z.quot m n) in *.
    assert (Eabs : Z.abs (b2 - q * b1) = Z.abs b2 + q * Z.abs b1) by nia.
    refine (IH _ _ _ _ _ _ _ _ _ HM _ _ _ _ _ _ E).
    + lia.
    + lia.
    + rewrite Eabs. nia.
    + nia.
    + destruct (Z.eq_dec b2 0) as [->|Hnz]; nia.
    + intros ->. destruct (Z.eq_dec n 1) as [->|]; [|lia]. nia.
Qed.

Lemma modinv_coprime (a p : Z) :
  0 < a -> 1 < p -> Z.gcd a p = 1 ->
  exists v, modinv a p = Ret v /\ 0 < v < p /\ Z.rem (a * v) p = 1.
Proof.
  intros Ha Hp Hg. unfold modinv, egcd.
  destruct (Z.leb_spec a 0); [lia|]. destruct (Z.leb_spec p 0); [lia|].
  destruct (Z.eqb_spec p 0); [lia|]. cbn [orb andb].
  destruct (egcd_loop_spec p a (S (Z.abs_nat a)) p a 0 1 1 0)
    as (c & x & y & E & Hxy & Hc); [|ring|ring|].
  { rewrite Nat2Z.inj_succ, Zabs2Nat.id_abs. lia. }
  assert (Hy : Z.abs y < p).
  { refine (egcd_loop_bound p _ _ _ _ _ _ _ _ _ _ _ _ _ _ _ _ _ E); lia. }
  rewrite E. rewrite Z.gcd_comm, Hg in Hc. cbn.
  assert (Hinv : forall x' y', x' * p + y' * a = 1 -> Z.abs y' < p ->
            0 < (if 0 <? y' then y' else y' + p) < p
            /\ Z.rem (a * (if 0 <? y' then y' else y' + p)) p = 1).
  { intros x' y' Hb Hlt.
    assert (y' <> 0) by (intros ->; destruct (Z_le_gt_dec x' 0); nia).
    destruct (Z.ltb_spec 0 y'); (split; [lia|]).
    - rewrite Z.rem_mod_nonneg by nia.
      replace (a * y') with (1 + (- x') * p) by lia.
      rewrite Z_mod_plus_full. apply Z.mod_1_l. lia.
    - rewrite Z.rem_mod_nonneg by nia.
      replace (a * (y' + p)) with (1 + (a - x') * p) by lia.
      rewrite Z_mod_plus_full. apply Z.mod_1_l. lia. }
  destruct (Z.ltb_spec c 0).
  - cbn. rewrite (proj2 (Z.eqb_eq (- c) 1)) by lia. cbn.
    eexists. split; [reflexivity|]. apply (Hinv (- x)); lia.
  - cbn. rewrite (proj2 (Z.eqb_eq c 1)) by lia. cbn.
    eexists. split; [reflexivity|]. apply (Hinv x); lia.
Qed.

Lemma modinv_not_coprime (a p : Z) :
  0 < a -> 0 < p -> Z.gcd a p <> 1 ->
  modinv a p = Throw (mkException "qpp::modinv()" OUT_OF_RANGE).
Proof.
  intros Ha Hp Hg. unfold modinv.
  destruct (Z.leb_spec a 0); [lia|]. destruct (Z.leb_spec p 0); [lia|].
  cbn [orb].
  destruct (egcd_Zgcd p a) as (x & y & -> & _); [lia|].
  cbn. rewrite Z.gcd_comm.
  destruct (Z.eqb_spec (Z.gcd a p) 1); [contradiction | reflexivity].
Qed.

(** Modulo 1 the code answers 1 whatever [a] is. *)
Lemma modinv_mod_1 (a : Z) : 0 < a -> modinv a 1 = Ret 1.
Proof.
  intros Ha. destruct (Z.eq_dec a 1) as [->|Hne]; [reflexivity|].
  unfold modinv, egcd.
  destruct (Z.leb_spec a 0); [lia|]. cbn [Z.leb Z.eqb Z.compare orb andb].
  cbn [egcd_loop]. destruct (Z.eqb_spec a 0); [lia|]. cbv zeta.
  rewrite (Z.quot_small 1 a) by lia.
  destruct (Z.abs_nat a) as [|k] eqn:Ek; [lia|].
  cbn [egcd_loop]. replace (1 - 0 * a) with 1 by lia. cbn [Z.eqb].
  cbv zeta. rewrite Z.quot_1_r.
  replace (a - a * 1) with 0 by lia.
  destruct k as [|k]; [lia|]. reflexivity.
Qed.

(** C3 as stated fails for the modulus 1: the open interval (0, 1) is empty
    and nothing is congruent to 1 modulo 1, yet [modinv 1 1] returns 1. *)
Lemma modinv_claim_fails_at_modulus_1 :
  ~ (forall a p, 0 < a -> 0 < p -> Z.gcd a p = 1 ->
       exists v, modinv a p = Ret v /\ 0 < v < p /\ Z.rem (a * v) p = 1).
Proof.
  intros H. destruct (H 1 1) as (v & E & Hv & _); [lia | lia | reflexivity |].
  lia.
Qed.

(** C3 (amended): for [a > 0] and a modulus [p > 1] coprime to [a],
    [modinv a p] returns a value of the open interval (0, p) whose product
    with [a] leaves remainder 1 modulo [p]; for the modulus 1 it returns 1;
    for [a, p > 0] that are not coprime it throws an out-of-range error. *)
Theorem modinv_correct (a p : Z) :
  0 < a -> 0 < p ->
  (1 < p -> Z.gcd a p = 1 ->
   exists v, modinv a p = Ret v /\ 0 < v < p /\ Z.rem (a * v) p = 1)
  /\ (p = 1 -> modinv a p = Ret 1)
  /\ (Z.gcd a p <> 1 ->
      modinv a p = Throw (mkException "qpp::modinv()" OUT_OF_RANGE)).
Proof.
  intros Ha Hp. split; [|split].
  - intros Hp1 Hg. apply modinv_coprime; assumption.
  - intros ->. apply modinv_mod_1, Ha.
  - intros Hg. apply modinv_not_coprime; assumption.
Qed.

Lemma modinv_correct_witness :
  (1 < 7 -> Z.gcd 3 7 = 1 ->
   exists v, modinv 3 7 = Ret v /\ 0 < v < 7 /\ Z.rem (3 * v) 7 = 1)
  /\ (7 = 1 -> modinv 3 7 = Ret 1)
  /\ (Z.gcd 3 7 <> 1 ->
      modinv 3 7 = Throw (mkException "qpp::modinv()" OUT_OF_RANGE)).
Proof. apply (modinv_correct 3 7); lia. Defined.

(** ** Modular multiplication *)

Example mulmod_7_9_5 :
  internal.mulmod 7 9 5 = Ret 3 /\ internal.mulmod1 7 9 5 = Ret 3.
Proof. split; reflexivity. Qed.

Example modpow_4_13_497 : modpow 4 13 497 = Ret 445.
Proof. reflexivity. Qed.

Lemma halving_fuel_enough (b : Z) :
  exists k, halving_fuel b = S k /\ b < 2 ^ Z.of_nat k.
Proof.
  exists (S (Z.to_nat (Z.log2 b))). split; [reflexivity|].
  pose proof (Z.log2_nonneg b) as Hl.
  rewrite Nat2Z.inj_succ, Z2Nat.id by exact Hl.
  destruct (Z_lt_le_dec 0 b) as [Hb|Hb].
  - apply Z.log2_spec, Hb.
  - pose proof (Z.pow_pos_nonneg 2 (Z.succ (Z.log2 b))). lia.
Qed.

Lemma halve_bound (b : Z) (k : nat) :
  0 <= b < 2 ^ Z.of_nat (S k) -> 0 <= b / 2 < 2 ^ Z.of_nat k.
Proof.
  rewrite Nat2Z.inj_succ, Z.pow_succ_r by lia. intros Hb.
  split; [apply Z.div_pos; lia | apply Z.div_lt_upper_bound; lia].
Qed.


Lemma mod_combine (m x y h : Z) :
  (x mod m + (y mod m) * h) mod m = (x + y * h) mod m.
Proof.
  rewrite Zplus_mod_idemp_l.
  rewrite (Z.add_mod_idemp_r x ((y mod m) * h)) || rewrite Zplus_mod.
  rewrite (Zplus_mod x (y * h)), <- (Zmult_mod_idemp_l y h).
  rewrite <- Zplus_mod. reflexivity.
Qed.



Lemma mulmod1_loop_S (fuel : nat) (a b mod_ res : Z) :
  internal.mulmod1_loop (S fuel) a b mod_ res =
  if 0 <? b then
    let res := if Z.rem b 2 =? 1 then Z.rem (res + a) mod_ else res in
    let a := Z.rem (a * 2) mod_ in
    let b := Z.quot b 2 in
    internal.mulmod1_loop fuel a b mod_ res
  else Some res.
Proof. reflexivity. Qed.


Lemma mulmod1_loop_spec (m : Z) (k : nat) : forall a b res,
  0 < m -> 0 <= a < m -> 0 <= res < m -> 0 <= b < 2 ^ Z.of_nat k ->
  internal.mulmod1_loop (S k) a b m res = Some ((res + a * b) mod m).
Proof.
  induction k as [|k IH]; intros a b res Hm Ha Hr Hb.
  - assert (b = 0) as -> by (cbn in Hb; lia). cbn.
    rewrite Z.mul_0_r, Z.add_0_r, Z.mod_small by lia. reflexivity.
  - rewrite mulmod1_loop_S. destruct (Z.ltb_spec 0 b) as [Hpos|Hzero].
    + cbv zeta. rewrite !Z.rem_mod_nonneg, Z.quot_div_nonneg by lia.
      pose proof (halve_bound b k Hb) as Hh.
      pose proof (Z.div_mod b 2 ltac:(lia)) as Eb.
      pose proof (Z.mod_pos_bound b 2 ltac:(lia)) as Hbit.
      pose proof (Z.mod_pos_bound (a * 2) m Hm) as Ha2.
      pose proof (Z.mod_pos_bound (res + a) m Hm) as Hr2.
      set (h := b / 2) in *. set (bit := b mod 2) in *.
      rewrite IH; [f_equal | lia | lia | | lia].
      * rewrite Eb. destruct (Z.eqb_spec bit 1) as [E1|E1].
        -- rewrite mod_combine. f_equal. lia.
        -- rewrite <- (Z.mod_small res m) at 1 by lia.
           rewrite mod_combine. f_equal. lia.
      * destruct (Z.eqb_spec bit 1); lia.
    + assert (b = 0) as -> by lia.
      rewrite Z.mul_0_r, Z.add_0_r, Z.mod_small by lia. reflexivity.
Qed.


Lemma mulmod1_value (a b m : Z) :
  0 <= a -> 0 <= b -> 0 < m -> internal.mulmod1 a b m = Ret ((a * b) mod m).
Proof.
  intros Ha Hb Hm. unfold internal.mulmod1. cbv zeta.
  rewrite (Z.rem_mod_nonneg a m) by lia.
  pose proof (Z.mod_pos_bound a m Hm).
  destruct (halving_fuel_enough b) as (k & -> & Hk).
  rewrite mulmod1_loop_spec by lia. cbn. f_equal.
  pose proof (Z.mod_pos_bound (0 + a mod m * b) m Hm).
  rewrite Z.rem_mod_nonneg, Z.mod_mod, Z.add_0_l by lia.
  apply Zmult_mod_idemp_l.
Qed.



(** ** Prime factor decomposition *)

Example factors_360 : factors 360 = Ret [2; 2; 2; 3; 3; 5].
Proof. reflexivity. Qed.

Example factors_neg_91 : factors (-91) = Ret [7; 13].
Proof. reflexivity. Qed.

Example factors_7919 : factors 7919 = Ret [7919].
Proof. vm_compute. reflexivity. Qed.

Lemma product_app (l1 l2 : list Z) :
  product (l1 ++ l2) = product l1 * product l2.
Proof.
  induction l1 as [|x l1 IH].
  - change (product l2 = 1 * product l2). ring.
  - change (x * product (l1 ++ l2) = x * product l1 * product l2).
    rewrite IH. ring.
Qed.

Lemma product_snoc (l : list Z) (x : Z) : product (l ++ [x]) = product l * x.
Proof. rewrite product_app. change (product [x]) with (x * 1). ring. Qed.

Lemma StronglySorted_snoc (l : list Z) (x : Z) :
  StronglySorted Z.le l -> Forall (fun y => y <= x) l ->
  StronglySorted Z.le (l ++ [x]).
Proof.
  induction 1 as [|y l Hs IH Hy]; intros Hx; cbn.
  - constructor; constructor.
  - inversion Hx as [|? ? Hyx Hlx]; subst.
    constructor; [apply IH, Hlx|].
    apply Forall_app. split; [exact Hy|].
    constructor; [exact Hyx | constructor].
Qed.

Lemma factors_inner_spec (N d : Z) (fuel : nat) : forall n result,
  factors_inv N n d result -> n <= Z.of_nat fuel ->
  exists n' result',
    factors_inner fuel n d result = Some (n', result')
    /\ factors_inv N n' d result' /\ ~ (d | n') /\ n' <= n.
Proof.
  induction fuel as [|fuel IH]; intros n result Hinv Hfuel.
  - destruct Hinv. lia.
  - destruct Hinv as (Hn & Hd & Hprod & Hprime & Hsort & Hle & Hdiv).
    cbn [factors_inner]. rewrite Z.rem_mod_nonneg by lia.
    destruct (Z.eqb_spec (n mod d) 0) as [E|E].
    + rewrite Z.quot_div_nonneg by lia.
      pose proof (Z.div_mod n d ltac:(lia)) as Hnd. rewrite E in Hnd.
      assert (Hq : 1 <= n / d < n) by nia.
      destruct (IH (n / d) (result ++ [d]))
        as (n' & result' & E' & Hinv' & Hnd' & Hle'); [|lia|].
      * split; [lia|]. split; [lia|].
        split; [rewrite product_snoc; nia|].
        split.
        { apply Forall_app. split; [exact Hprime|]. constructor; [|constructor].
          split; [lia|]. intros k Hk Hkd. apply (Hdiv k Hk).
          apply Z.divide_trans with d; [exact Hkd|].
          exists (n / d). lia. }
        split; [apply StronglySorted_snoc; assumption|].
        split.
        { apply Forall_app. split; [exact Hle|].
          constructor; [lia | constructor]. }
        intros k Hk Hkq. apply (Hdiv k Hk).
        apply Z.divide_trans with (n / d); [exact Hkq|].
        exists d. lia.
      * exists n', result'. repeat split; try assumption; try lia.
        all: destruct Hinv' as (? & ? & ? & ? & ? & ? & ?); assumption || lia.
    + exists n, result. split; [reflexivity|].
      split; [repeat split; assumption|].
      split; [|lia]. intros Hdn. apply E. apply Z.mod_divide; [lia | exact Hdn].
Qed.

(** A number above 1 without a divisor strictly between 1 and [d], and
    smaller than [d * d], is prime. *)
Lemma prime_below_square (n d : Z) :
  1 < n -> 2 <= d -> n < d * d ->
  (forall k, 1 < k < d -> ~ (k | n)) -> Z.prime n.
Proof.
  intros Hn Hd Hsq Hdiv. split; [exact Hn|].
  intros k Hk [j Hj].
  assert (1 < j < n) by nia.
  assert (d <= k).
  { destruct (Z_lt_le_dec k d); [|assumption].
    exfalso. apply (Hdiv k); [lia | exists j; exact Hj]. }
  assert (d <= j).
  { destruct (Z_lt_le_dec j d); [|assumption].
    exfalso. apply (Hdiv j); [lia | exists k; lia]. }
  nia.
Qed.

Lemma factors_outer_spec (N : Z) (fuel : nat) : forall n d result,
  factors_inv N n d result -> 1 < n -> d <= n -> n - d < Z.of_nat fuel ->
  exists l, factors_outer fuel n d result = Some l
    /\ StronglySorted Z.le l /\ Forall Z.prime l /\ product l = N.
Proof.
  induction fuel as [|fuel IH]; intros n d result Hinv Hn Hdn Hfuel; [lia|].
  cbn [factors_outer]. destruct (Z.ltb_spec 1 n) as [_|]; [|lia].
  destruct (factors_inner_spec N d (Z.to_nat n) n result Hinv ltac:(lia))
    as (n' & result' & -> & Hinv' & Hnd' & Hle').
  destruct Hinv' as (Hn' & Hd & Hprod & Hprime & Hsort & Hle & Hdiv).
  cbv zeta.
  assert (Hdiv' : forall k, 1 < k < d + 1 -> ~ (k | n')).
  { intros k Hk. destruct (Z.eq_dec k d) as [->|]; [exact Hnd'|].
    apply Hdiv. lia. }
  destruct (Z.ltb_spec n' ((d + 1) * (d + 1))) as [Hsq|Hsq].
  - eexists. split; [reflexivity|].
    destruct (Z.ltb_spec 1 n') as [Hn1|Hn1].
    + assert (d + 1 <= n').
      { destruct (Z_lt_le_dec n' (d + 1)); [|assumption].
        exfalso. apply (Hdiv' n'); [lia | apply Z.divide_refl]. }
      split; [|split].
      * apply StronglySorted_snoc; [exact Hsort|].
        revert Hle. apply List.Forall_impl. intros; lia.
      * apply Forall_app. split; [exact Hprime|].
        constructor; [|constructor].
        apply (prime_below_square n' (d + 1)); assumption || lia.
      * rewrite product_snoc. exact Hprod.
    + assert (n' = 1) as -> by lia.
      split; [exact Hsort|]. split; [exact Hprime | lia].
  - apply IH; try nia.
    split; [lia|]. split; [lia|]. split; [exact Hprod|].
    split; [exact Hprime|]. split; [exact Hsort|].
    split; [|exact Hdiv'].
    revert Hle. apply List.Forall_impl. intros; lia.
Qed.

(** What [factors] starts its outer loop from. *)
Lemma factors_inv_init (n : Z) : 2 <= n -> factors_inv n n 2 [].
Proof.
  intros Hn. split; [lia|]. split; [lia|]. split; [cbn; lia|].
  split; [constructor|]. split; [constructor|]. split; [constructor|].
  intros k Hk. lia.
Qed.

(** On [n >= 2] the list [factors] returns is a prime factorisation of
    [n]; the development also takes its prime factorisations from here. *)
Lemma factors_sound (n : Z) :
  2 <= n ->
  exists l, factors n = Ret l /\ Forall Z.prime l /\ product l = n.
Proof.
  intros Hn. unfold factors. cbv zeta.
  destruct (Z.ltb_spec n 0); [lia|].
  destruct (Z.eqb_spec n 0); [lia|]. destruct (Z.eqb_spec n 1); [lia|].
  cbn [orb].
  destruct (factors_outer_spec n (Z.to_nat n) n 2 [] (factors_inv_init n Hn))
    as (l & -> & _ & Hprime & Hprod); try lia.
  exists l. split; [reflexivity|]. split; assumption.
Qed.



(** ** Permutations *)

Example invperm_2_0_1 : invperm [2; 0; 1]%nat = Ret [1; 2; 0]%nat.
Proof. reflexivity. Qed.

Example compperm_example :
  compperm [2; 0; 1]%nat [1; 2; 0]%nat = Ret [0; 1; 2]%nat.
Proof. reflexivity. Qed.

Example invperm_0_0 :
  invperm [0; 0]%nat = Throw (mkException "qpp::invperm()" PERM_INVALID).
Proof. reflexivity. Qed.

Example contfrac2x_3_4 : contfrac2x [3; 4] 2 = Ret 3.25%float.
Proof. reflexivity. Qed.

Example contfrac2x_all_3_4_12 :
  contfrac2x_all [3; 4; 12] = contfrac2x [3; 4; 12] 10.
Proof. reflexivity. Qed.

Lemma check_perm_spec (v : list nat) :
  internal._check_perm v = true <->
  Forall (fun x => (x < length v)%nat) v /\ NoDup v.
Proof. unfold internal._check_perm. apply bool_decide_eq_true. Qed.

(** A valid permutation takes every value of its range. *)
Lemma perm_surjective (p : list nat) (i : nat) :
  Forall (fun x => (x < length p)%nat) p -> NoDup p -> (i < length p)%nat ->
  exists j, (j < length p)%nat /\ p !!! j = i.
Proof.
  intros Hrange Hnodup Hi.
  assert (Hsub : p ⊆+ seq 0 (length p)).
  { apply NoDup_submseteq; [exact Hnodup|]. intros x Hx.
    apply elem_of_seq. rewrite Forall_forall in Hrange.
    specialize (Hrange x Hx). lia. }
  apply submseteq_length_Permutation in Hsub; [|rewrite length_seq; lia].
  apply list_elem_of_lookup_total. rewrite Hsub. apply elem_of_seq. lia.
Qed.

(** The first [n] rounds of the scatter loop of [invperm]. *)
Lemma scatter_prefix (p init : list nat) (n : nat) :
  Forall (fun x => (x < length p)%nat) p -> NoDup p ->
  length init = length p -> (n <= length p)%nat ->
  let q := foldl (fun result i => <[p !!! i := i]> result) init (seq 0 n) in
  length q = length p
  /\ forall j, (j < n)%nat -> q !! (p !!! j) = Some j.
Proof.
  intros Hrange Hnodup Hinit. cbv zeta.
  induction n as [|n IH]; intros Hn.
  - split; [exact Hinit | intros j Hj; lia].
  - destruct IH as [Hlen Hlook]; [lia|].
    rewrite seq_S, foldl_app. cbn [foldl Nat.add].
    split; [rewrite length_insert; exact Hlen|].
    intros j Hj.
    assert (Hpn : (p !!! n < length p)%nat).
    { rewrite Forall_lookup_total in Hrange. apply Hrange. lia. }
    destruct (Nat.eq_dec j n) as [->|Hne].
    + apply list_lookup_insert_eq. lia.
    + rewrite list_lookup_insert_ne; [apply Hlook; lia|].
      intros E. apply Hne. symmetry.
      apply (proj1 (NoDup_alt p) Hnodup n j (p !!! n)).
      * apply list_lookup_lookup_total_lt. lia.
      * rewrite E. apply list_lookup_lookup_total_lt. lia.
Qed.

(** The first [n] rounds of the filling loop of [compperm]. *)
Lemma fill_prefix (f : nat -> nat) (init : list nat) (n : nat) :
  (n <= length init)%nat ->
  let r := foldl (fun result i => <[i := f i]> result) init (seq 0 n) in
  length r = length init
  /\ forall k, (k < n)%nat -> r !! k = Some (f k).
Proof.
  cbv zeta. induction n as [|n IH]; intros Hn.
  - split; [reflexivity | intros k Hk; lia].
  - destruct IH as [Hlen Hlook]; [lia|].
    rewrite seq_S, foldl_app. cbn [foldl Nat.add].
    split; [rewrite length_insert; exact Hlen|].
    intros k Hk. destruct (Nat.eq_dec k n) as [->|Hne].
    + apply list_lookup_insert_eq. lia.
    + rewrite list_lookup_insert_ne by lia. apply Hlook. lia.
Qed.

Lemma fill_identity (f : nat -> nat) (n : nat) :
  (forall i, (i < n)%nat -> f i = i) ->
  foldl (fun result i => <[i := f i]> result) (replicate n 0%nat) (seq 0 n)
  = seq 0 n.
Proof.
  intros Hf.
  destruct (fill_prefix f (replicate n 0%nat) n) as [Hlen Hlook].
  { rewrite length_replicate. lia. }
  rewrite length_replicate in Hlen.
  apply (list_eq_same_length _ _ n); [apply length_seq | exact Hlen|].
  intros i x y Hi Hx Hy. rewrite Hlook in Hx by exact Hi.
  rewrite lookup_seq_lt in Hy by exact Hi.
  injection Hx as <-. injection Hy as <-. apply Hf, Hi.
Qed.

(** C8: for a valid permutation [p], that is a list of length N whose
    values are below N and pairwise distinct, [invperm p] returns a list
    [q], and both [compperm p q] and [compperm q p] return the identity
    [[0; 1; ...; N-1]]. *)
Theorem compperm_invperm_identity (p : list nat) :
  Forall (fun x => (x < length p)%nat) p -> NoDup p ->
  exists q, invperm p = Ret q
    /\ compperm p q = Ret (seq 0 (length p))
    /\ compperm q p = Ret (seq 0 (length p)).
Proof.
  intros Hrange Hnodup.
  assert (Hp : internal._check_perm p = true)
    by (apply check_perm_spec; split; assumption).
  unfold invperm. rewrite Hp. cbn [negb].
  set (q := foldl _ _ _).
  destruct (scatter_prefix p (replicate (length p) 0%nat) (length p))
    as [Hlen Hq]; try assumption.
  { apply length_replicate. }
  { lia. }
  fold q in Hlen, Hq.
  assert (Hqp : forall j, (j < length p)%nat -> q !!! (p !!! j) = j).
  { intros j Hj. apply list_lookup_total_correct, Hq, Hj. }
  assert (Hpq : forall i, (i < length p)%nat -> p !!! (q !!! i) = i).
  { intros i Hi.
    destruct (perm_surjective p i Hrange Hnodup Hi) as (j & Hj & <-).
    rewrite Hqp by exact Hj. reflexivity. }
  assert (Hcq : internal._check_perm q = true).
  { apply check_perm_spec. rewrite Hlen. split.
    - apply (proj2 (@Forall_lookup_total
                      nat (fun x => (x < length p)%nat) _ q)).
      rewrite Hlen. intros i Hi.
      destruct (perm_surjective p i Hrange Hnodup Hi) as (j & Hj & <-).
      rewrite Hqp by exact Hj. exact Hj.
    - apply NoDup_alt. intros a b x Ha Hb.
      pose proof (lookup_lt_Some _ _ _ Ha) as Hla.
      pose proof (lookup_lt_Some _ _ _ Hb) as Hlb.
      rewrite Hlen in Hla, Hlb.
      apply list_lookup_total_correct in Ha, Hb.
      rewrite <- (Hpq a Hla), <- (Hpq b Hlb), Ha, Hb. reflexivity. }
  exists q. split; [reflexivity|].
  unfold compperm. rewrite Hp, Hcq, Hlen, Nat.eqb_refl. cbn [negb].
  split; f_equal; apply fill_identity; assumption.
Qed.

Lemma compperm_invperm_identity_witness :
  exists q, invperm [2; 0; 3; 1]%nat = Ret q
    /\ compperm [2; 0; 3; 1]%nat q = Ret (seq 0 (length [2; 0; 3; 1]%nat))
    /\ compperm q [2; 0; 3; 1]%nat = Ret (seq 0 (length [2; 0; 3; 1]%nat)).
Proof.
  apply (compperm_invperm_identity [2; 0; 3; 1]%nat).
  - repeat constructor.
  - apply (proj1 (check_perm_spec [2; 0; 3; 1]%nat)). reflexivity.
Defined.

(** ** Primality test *)

Example isprime_97_low :
  isprime (fun _ lo _ => lo) 97 80 0%nat = Ret (true, 81%nat).
Proof. vm_compute. reflexivity. Qed.

Example isprime_9_high :
  isprime (fun _ _ hi => hi) 9 80 0%nat = Ret (false, 2%nat).
Proof. vm_compute. reflexivity. Qed.

Example randprime_low :
  randprime (fun _ lo _ => lo) 90 100 20 0%nat
  = Throw (mkException "qpp::randprime()"
             (CUSTOM_EXCEPTION "Prime not found!")).
Proof. vm_compute. reflexivity. Qed.

Example randprime_high :
  randprime (fun _ _ hi => hi) 90 97 1000 0%nat = Ret (97, 83%nat).
Proof. vm_compute. reflexivity. Qed.

Example randprime_negative :
  randprime (fun _ lo _ => lo) (-7) (-7) 1000 0%nat
  = Throw (mkException "qpp::modpow()" OUT_OF_RANGE).
Proof. vm_compute. reflexivity. Qed.

Example isprime_spec_97 :
  isprime_spec (fun _ lo _ => lo) 97 80 0%nat = Ret (true, 81%nat).
Proof. vm_compute. reflexivity. Qed.

(** ** Boundary calls *)

Lemma modpow_0_0 (p : Z) :
  1 <= p -> modpow 0 0 p = Throw (mkException "qpp::modpow()" OUT_OF_RANGE).
Proof.
  intros Hp. unfold modpow. destruct (Z.ltb_spec p 1); [lia|]. reflexivity.
Qed.

(** C9 as stated puts the error of [invperm [0; 0]] among the out-of-range
    ones; the code throws an exception of the kind [PERM_INVALID]. *)
Lemma invperm_0_0_not_out_of_range :
  ~ (exists w, invperm [0; 0]%nat = Throw (mkException w OUT_OF_RANGE)).
Proof. intros [w Hw]. vm_compute in Hw. discriminate Hw. Qed.

(** C9 (amended): [gcd 0 0], [lcm 0 0] and [modpow 0 0 p] for [p >= 1]
    throw an out-of-range error, [contfrac2x] on an empty vector (either
    overload) throws a zero-size error, and [invperm [0; 0]] throws an
    invalid-permutation error; none of them returns a value. *)
Theorem boundary_calls_throw :
  gcd 0 0 = Throw (mkException "qpp::gcd()" OUT_OF_RANGE)
  /\ lcm 0 0 = Throw (mkException "qpp::lcm()" OUT_OF_RANGE)
  /\ (forall p, 1 <= p ->
        modpow 0 0 p = Throw (mkException "qpp::modpow()" OUT_OF_RANGE))
  /\ (forall n, contfrac2x [] n
                = Throw (mkException "qpp::contfrac2x()" ZERO_SIZE))
  /\ contfrac2x_all [] = Throw (mkException "qpp::contfrac2x()" ZERO_SIZE)
  /\ invperm [0; 0]%nat = Throw (mkException "qpp::invperm()" PERM_INVALID).
Proof.
  split; [reflexivity|]. split; [reflexivity|].
  split; [exact modpow_0_0|].
  split; [intros n; reflexivity|].
  split; reflexivity.
Qed.

Lemma boundary_calls_throw_witness :
  modpow 0 0 497 = Throw (mkException "qpp::modpow()" OUT_OF_RANGE).
Proof.
  apply (proj1 (proj2 (proj2 boundary_calls_throw)) 497). lia.
Defined.

(** ** Modular exponentiation *)

Lemma modpow_loop_S (fuel : nat) (a n p result : Z) :
  modpow_loop (S fuel) a n p result =
  if 0 <? n then
    result ← (if negb (Z.rem n 2 =? 0)
              then t ← internal.mulmod1 result a p; Ret (Z.rem t p)
              else Ret result);
    a ← (t ← internal.mulmod1 a a p; Ret (Z.rem t p));
    modpow_loop fuel a (Z.quot n 2) p result
  else Ret result.
Proof. reflexivity. Qed.

Lemma mulmod1_rem (a b p : Z) :
  0 <= a -> 0 <= b -> 0 < p ->
  (t ← internal.mulmod1 a b p; Ret (Z.rem t p)) = Ret ((a * b) mod p).
Proof.
  intros Ha Hb Hp. rewrite mulmod1_value by assumption. cbn. f_equal.
  pose proof (Z.mod_pos_bound (a * b) p Hp).
  rewrite Z.rem_mod_nonneg by lia. apply Z.mod_mod. lia.
Qed.

Lemma modpow_loop_spec (p : Z) (k : nat) : forall a e result,
  0 < p -> 0 <= a -> 0 <= result -> 0 <= e < 2 ^ Z.of_nat k ->
  modpow_loop (S k) a e p result =
  Ret (if e =? 0 then result else (result * a ^ e) mod p).
Proof.
  induction k as [|k IH]; intros a e result Hp Ha Hr He.
  - assert (e = 0) as -> by (cbn in He; lia). reflexivity.
  - rewrite modpow_loop_S. destruct (Z.ltb_spec 0 e) as [Hpos|Hzero].
    + rewrite Z.rem_mod_nonneg, Z.quot_div_nonneg by lia.
      pose proof (halve_bound e k He) as Hh.
      pose proof (Z.div_mod e 2 ltac:(lia)) as Ee.
      pose proof (Z.mod_pos_bound e 2 ltac:(lia)) as Hbit.
      pose proof (Z.mod_pos_bound (a * a) p Hp) as Ha2.
      pose proof (Z.mod_pos_bound (result * a) p Hp) as Hr2.
      set (h := e / 2) in *. set (bit := e mod 2) in *.
      rewrite (mulmod1_rem a a) by assumption.
      assert (Epow : a ^ e = a ^ bit * (a * a) ^ h).
      { rewrite Ee, Z.add_comm, Z.pow_add_r, Z.pow_mul_r by lia.
        f_equal. f_equal. lia. }
      destruct (Z.eqb_spec e 0) as [|_]; [lia|].
      destruct (Z.eqb_spec bit 0) as [E0|E0]; cbn [negb].
      * rewrite !bind_Ret, IH by lia.
        destruct (Z.eqb_spec h 0); [lia|]. f_equal.
        rewrite Epow, E0, Z.pow_0_r, Z.mul_1_l.
        rewrite Zmult_mod, Z.mod_pow_l, <- Zmult_mod. reflexivity.
      * assert (bit = 1) as E1 by lia.
        rewrite mulmod1_rem by assumption.
        rewrite !bind_Ret, IH by lia. f_equal.
        rewrite Epow, E1, Z.pow_1_r.
        destruct (Z.eqb_spec h 0) as [->|].
        -- rewrite Z.pow_0_r, Z.mul_1_r. reflexivity.
        -- rewrite Zmult_mod, Z.mod_mod, Z.mod_pow_l, <- Zmult_mod by lia.
           f_equal. ring.
    + assert (e = 0) as -> by lia. reflexivity.
Qed.

(** [modpow] computes [a ^ n mod p] wherever it does not throw. *)
Lemma modpow_value (a n p : Z) :
  0 <= a -> 0 <= n -> 1 <= p -> a <> 0 \/ n <> 0 ->
  modpow a n p = Ret (a ^ n mod p).
Proof.
  intros Ha Hn Hp Hnz. unfold modpow.
  destruct (Z.ltb_spec a 0); [lia|]. destruct (Z.ltb_spec n 0); [lia|].
  destruct (Z.ltb_spec p 1); [lia|]. cbn [orb].
  destruct (Z.eqb_spec a 0) as [->|Ha0]; cbn [andb].
  - destruct (Z.eqb_spec n 0); [lia|].
    destruct (Z.ltb_spec 0 n); [|lia].
    rewrite Z.pow_0_l, Z.mod_0_l by lia. reflexivity.
  - destruct (Z.eqb_spec n 0) as [->|Hn0]; cbn [andb].
    + destruct (Z.eqb_spec p 1) as [->|Hp1]; [reflexivity|].
      rewrite Z.pow_0_r, Z.mod_1_l by lia. reflexivity.
    + destruct (halving_fuel_enough n) as (k & -> & Hk).
      rewrite modpow_loop_spec by lia.
      destruct (Z.eqb_spec n 0); [lia|]. rewrite Z.mul_1_l. reflexivity.
Qed.


(** ** Decomposition of [n - 1] *)

Lemma isprime_u_loop_S (fuel : nat) (i u : Z) :
  isprime_u_loop (S fuel) i u =
  if Z.rem i 2 =? 0 then isprime_u_loop fuel (Z.quot i 2) (u + 1) else Some u.
Proof. reflexivity. Qed.

Lemma decompose_pos (p : positive) :
  Zpos p = 2 ^ trailing_zeros p * Zpos (odd_part p)
  /\ Z.odd (Zpos (odd_part p)) = true
  /\ 0 <= trailing_zeros p.
Proof.
  induction p as [p IH|p IH|]; cbn [trailing_zeros odd_part].
  - split; [lia|]. split; [reflexivity | lia].
  - destruct IH as (E & Hodd & Hu).
    split; [|split; [exact Hodd | lia]].
    rewrite Z.pow_succ_r by exact Hu. rewrite Pos2Z.inj_xO. lia.
  - split; [reflexivity|]. split; [reflexivity | lia].
Qed.

Lemma isprime_u_loop_pos (p : positive) : forall (k : nat) (u : Z),
  Zpos p < 2 ^ Z.of_nat k ->
  isprime_u_loop (S k) (Zpos p) u = Some (u + trailing_zeros p).
Proof.
  induction p as [p IH|p IH|]; intros k u Hk; rewrite isprime_u_loop_S.
  - replace (Z.rem (Zpos p~1) 2) with 1.
    + cbn [trailing_zeros]. rewrite Z.add_0_r. reflexivity.
    + rewrite Z.rem_mod_nonneg, Pos2Z.inj_xI by lia.
      rewrite Z.add_comm, Z.mul_comm, Z_mod_plus_full. reflexivity.
  - replace (Z.rem (Zpos p~0) 2) with 0.
    + replace (Z.quot (Zpos p~0) 2) with (Zpos p).
      * destruct k as [|k]; [cbn in Hk; lia|].
        rewrite Nat2Z.inj_succ, Z.pow_succ_r in Hk by lia.
        rewrite IH by lia. cbn [trailing_zeros]. f_equal. lia.
      * rewrite Pos2Z.inj_xO, Z.mul_comm, Z.quot_mul by lia. reflexivity.
    + rewrite Z.rem_mod_nonneg, Pos2Z.inj_xO by lia.
      rewrite Z.mul_comm, Z.mod_mul by lia. reflexivity.
  - cbn. rewrite Z.add_0_r. reflexivity.
Qed.

(** The loop that counts [u] and the division by [2 ^ u] compute the
    decomposition the specification asks for. *)
Lemma isprime_u_loop_decompose (m : Z) :
  0 < m ->
  exists u r, decompose_spec m = (u, r)
    /\ isprime_u_loop (halving_fuel m) m 0 = Some u
    /\ Z.quot m (2 ^ u) = r
    /\ m = 2 ^ u * r /\ Z.odd r = true /\ 0 <= u /\ 0 < r.
Proof.
  intros Hm. destruct m as [|p|p]; try lia.
  destruct (decompose_pos p) as (E & Hodd & Hu).
  exists (trailing_zeros p), (Zpos (odd_part p)).
  split; [reflexivity|].
  destruct (halving_fuel_enough (Zpos p)) as (k & -> & Hk).
  rewrite isprime_u_loop_pos by exact Hk.
  split; [reflexivity|].
  assert (0 < 2 ^ trailing_zeros p) by (apply Z.pow_pos_nonneg; lia).
  split.
  { rewrite E at 1. rewrite Z.mul_comm, Z.quot_mul by lia. reflexivity. }
  split; [exact E|]. split; [exact Hodd|]. split; [exact Hu | lia].
Qed.

(** ** Powers of two and minus one *)






(** ** The random-source monad *)

Lemma bind_rand {B : Type} (src : RandomSource) (a b : Z)
      (f : Z -> Rand B) (i : nat) :
  (rand src a b ≫= f) i = f (src i a b) (S i).
Proof. reflexivity. Qed.

Lemma bind_lift {A B : Type} (m : outcome A) (f : A -> Rand B) (i : nat) :
  (lift m ≫= f) i =
  match m with
  | Ret a => f a i
  | Throw e => Throw e
  | Diverge => Diverge
  end.
Proof. destruct m; reflexivity. Qed.

Lemma bind_Rand {A B : Type} (m : Rand A) (f : A -> Rand B) (i : nat) :
  (m ≫= f) i =
  match m i with
  | Ret (a, i') => f a i'
  | Throw e => Throw e
  | Diverge => Diverge
  end.
Proof. reflexivity. Qed.

Lemma mret_Rand {A : Type} (a : A) (i : nat) : (mret a : Rand A) i = Ret (a, i).
Proof. reflexivity. Qed.

(** ** The squaring loop *)

Lemma squaring_loop_S (rounds : nat) (z n : Z) :
  squaring_loop (S rounds) z n =
  let z := Z.rem (Z.rem z n * Z.rem z n) n in
  if z =? 1 then SqComposite
  else if z =? n - 1 then SqJump
  else squaring_loop rounds z n.
Proof. reflexivity. Qed.

Lemma squaring_step (z n : Z) :
  0 < n -> Z.rem (Z.rem z n * Z.rem z n) n = Z.rem z n ^ 2 mod n.
Proof.
  intros Hn. rewrite Z.pow_2_r. apply Z.rem_mod_nonneg; [nia | exact Hn].
Qed.




(** ** The code against the specification's procedure *)

Lemma isprime_rounds_S (src : RandomSource) (k : nat) (n u r : Z) :
  isprime_rounds src (S k) n u r =
  (a ← rand src 2 (n - 2);
   z ← lift (modpow a r n);
   if (z =? 1) || (z =? n - 1) then isprime_rounds src k n u r
   else
     match squaring_loop (Z.to_nat u) z n with
     | SqComposite => mret false
     | SqJump => isprime_rounds src k n u r
     | SqCompleted => mret false
     end).
Proof. reflexivity. Qed.




(** ** Primality of primes *)

(** Modulo a prime the only square roots of 1 are 1 and -1, so a chain of
    squarings that ends in 1 passes through -1 first. *)
Lemma squaring_loop_prime (n : Z) (c : nat) : Z.prime n -> forall z,
  0 <= z < n -> z <> 1 -> z <> n - 1 ->
  z ^ (2 ^ Z.of_nat c) mod n = 1 ->
  squaring_loop c z n = SqJump.
Proof.
  intros Hp. pose proof (Z.prime_ge_2 n Hp) as Hn.
  induction c as [|c IH]; intros z Hz H1 Hm1 Hpow.
  - cbn in Hpow. rewrite Z.pow_1_r, Z.mod_small in Hpow by lia. contradiction.
  - rewrite squaring_loop_S. cbv zeta.
    rewrite squaring_step, (Z.rem_small z n) by lia.
    pose proof (Z.mod_pos_bound (z ^ 2) n ltac:(lia)) as Hz1.
    destruct (Z.eqb_spec (z ^ 2 mod n) 1) as [E1|E1].
    + exfalso.
      assert (Hdiv : (n | (z - 1) * (z + 1))).
      { replace ((z - 1) * (z + 1)) with (z ^ 2 - 1) by ring.
        apply Zmod_divide_minus; [lia | exact E1]. }
      apply Z.divide_prime_mul in Hdiv; [|exact Hp].
      destruct Hdiv as [[q Hq]|[q Hq]].
      * assert (q = 0) by (destruct (Z_lt_le_dec q 0), (Z_lt_le_dec 0 q); nia).
        subst q. lia.
      * assert (q = 1) by (destruct (Z_lt_le_dec q 1), (Z_lt_le_dec 1 q); nia).
        subst q. lia.
    + destruct (Z.eqb_spec (z ^ 2 mod n) (n - 1)) as [|Em1]; [reflexivity|].
      apply IH; try assumption.
      rewrite Z.mod_pow_l, <- Z.pow_mul_r by lia.
      rewrite Nat2Z.inj_succ, Z.pow_succ_r in Hpow by lia. exact Hpow.
Qed.

Lemma isprime_rounds_prime (src : RandomSource) (n u r : Z) :
  Z.prime n -> 5 <= n -> in_range src ->
  0 <= u -> 0 < r -> n - 1 = 2 ^ u * r ->
  forall (k i : nat),
    isprime_rounds src k n u r i = Ret (true, (k + i)%nat).
Proof.
  intros Hp Hn Hsrc Hu Hr Hn1. induction k as [|k IH]; intros i; [reflexivity|].
  rewrite isprime_rounds_S, bind_rand, bind_lift.
  pose proof (Hsrc i 2 (n - 2) ltac:(lia)) as Ha.
  set (a := src i 2 (n - 2)) in *.
  rewrite modpow_value by lia.
  pose proof (Z.mod_pos_bound (a ^ r) n ltac:(lia)) as Hz.
  set (z := a ^ r mod n) in *.
  replace (S k + i)%nat with (k + S i)%nat by lia.
  destruct (Z.eqb_spec z 1) as [|H1]; [apply IH|].
  destruct (Z.eqb_spec z (n - 1)) as [|Hm1]; [apply IH|]. cbn [orb].
  rewrite (squaring_loop_prime n (Z.to_nat u) Hp z); try assumption.
  - apply IH.
  - rewrite Z2Nat.id by exact Hu. unfold z.
    rewrite Z.mod_pow_l, <- Z.pow_mul_r by (try apply Z.pow_nonneg; lia).
    rewrite (Z.mul_comm r), <- Hn1.
    apply Z.fermat_nz; [exact Hp|]. rewrite Z.mod_small; lia.
Qed.

(** With a random source that honours the requested ranges, [isprime]
    accepts every prime, whatever the number of rounds. *)
Lemma isprime_prime (src : RandomSource) (n : Z) (k i : nat) :
  Z.prime n -> in_range src ->
  exists i', isprime src n k i = Ret (true, i').
Proof.
  intros Hp Hsrc. pose proof (Z.prime_ge_2 n Hp) as Hn.
  unfold isprime. cbv zeta.
  destruct (Z.ltb_spec n 0); [lia|]. destruct (Z.ltb_spec n 2); [lia|].
  destruct ((n =? 2) || (n =? 3)) eqn:E23; [eexists; reflexivity|].
  assert (n <> 4).
  { intros ->. destruct Hp as [_ Hp]. apply (Hp 2); [lia | exists 2; lia]. }
  assert (Hn5 : 5 <= n) by lia.
  rewrite bind_rand, bind_lift.
  pose proof (Hsrc i 2 (n - 1) ltac:(lia)) as Hx.
  rewrite modpow_value by lia.
  rewrite Z.fermat_nz; [|exact Hp | rewrite Z.mod_small; lia].
  cbn [Z.eqb Pos.eqb negb].
  destruct (isprime_u_loop_decompose (n - 1))
    as (u & r & _ & -> & Hr & Hn1 & Hodd & Hu & Hrpos); [lia|].
  rewrite bind_lift. cbn [run]. rewrite Hr.
  rewrite isprime_rounds_prime by assumption. eexists; reflexivity.
Qed.

Lemma prime_by_factors (n : Z) : 2 <= n -> factors n = Ret [n] -> Z.prime n.
Proof.
  intros Hn E.
  destruct (factors_sound n Hn) as (l & El & Hprime & _).
  rewrite E in El. injection El as <-.
  inversion Hprime; assumption.
Qed.

(** ** Rejection of composites *)

Lemma Z_forallb_spec (P : Z -> bool) (count : nat) : forall lo x,
  Z_forallb count lo P = true ->
  lo <= x < lo + Z.of_nat count -> P x = true.
Proof.
  induction count as [|count IH]; intros lo x H Hx; [lia|].
  cbn [Z_forallb] in H. apply andb_true_iff in H as [Hlo Hrest].
  destruct (Z.eq_dec x lo) as [->|]; [exact Hlo|].
  apply (IH (lo + 1)); [exact Hrest | lia].
Qed.

(** If the Fermat filter turns [n] down on every draw it can get, [isprime]
    answers false after one draw. *)
Lemma isprime_fermat_reject (src : RandomSource) (n : Z) (k i : nat) :
  4 <= n -> in_range src ->
  Z_forallb (Z.to_nat (n - 2)) 2 (fermat_rejects n) = true ->
  isprime src n k i = Ret (false, S i).
Proof.
  intros Hn Hsrc Hall. unfold isprime. cbv zeta.
  destruct (Z.ltb_spec n 0); [lia|]. destruct (Z.ltb_spec n 2); [lia|].
  destruct (Z.eqb_spec n 2); [lia|]. destruct (Z.eqb_spec n 3); [lia|].
  cbn [orb]. rewrite bind_rand, bind_lift.
  pose proof (Hsrc i 2 (n - 1) ltac:(lia)) as Hx.
  rewrite modpow_value by lia.
  pose proof (Z_forallb_spec _ _ 2 (src i 2 (n - 1)) Hall ltac:(lia)) as Hrej.
  unfold fermat_rejects in Hrej. rewrite Zpow_mod_correct in Hrej by lia.
  rewrite Hrej. reflexivity.
Qed.

(** If a Miller-Rabin round turns [n] down on every draw it can get,
    [isprime] with at least one round answers false. *)
Lemma isprime_round_reject (src : RandomSource) (n u r : Z) (k i : nat) :
  4 <= n -> in_range src ->
  decompose_spec (n - 1) = (u, r) ->
  Z_forallb (Z.to_nat (n - 3)) 2 (round_rejects n u r) = true ->
  exists i', isprime src n (S k) i = Ret (false, i').
Proof.
  intros Hn Hsrc Hdec Hall. unfold isprime. cbv zeta.
  destruct (Z.ltb_spec n 0); [lia|]. destruct (Z.ltb_spec n 2); [lia|].
  destruct (Z.eqb_spec n 2); [lia|]. destruct (Z.eqb_spec n 3); [lia|].
  cbn [orb]. rewrite bind_rand, bind_lift.
  pose proof (Hsrc i 2 (n - 1) ltac:(lia)) as Hx.
  rewrite modpow_value by lia.
  destruct (negb (_ =? 1)); [eexists; reflexivity|].
  destruct (isprime_u_loop_decompose (n - 1))
    as (u' & r' & Hdec' & -> & Hr & _); [lia|].
  rewrite Hdec in Hdec'. injection Hdec' as <- <-.
  rewrite bind_lift. cbn [run]. rewrite Hr.
  rewrite isprime_rounds_S, bind_rand, bind_lift.
  pose proof (Hsrc (S i) 2 (n - 2) ltac:(lia)) as Ha.
  pose proof (Z_forallb_spec _ _ 2 (src (S i) 2 (n - 2)) Hall ltac:(lia))
    as Hrej.
  unfold round_rejects in Hrej.
  destruct (modpow (src (S i) 2 (n - 2)) r n) as [z| |]; try discriminate.
  apply andb_true_iff in Hrej as [Hz Hsq].
  apply negb_true_iff in Hz. rewrite Hz.
  destruct (squaring_loop (Z.to_nat u) z n);
    try discriminate; eexists; reflexivity.
Qed.

(** C5: with a random source that honours the requested ranges, [isprime]
    with the default 80 rounds answers true on 2, 3, 5, 7, 97 and 7919 and
    false on 4, 9, 100 and 7920, whatever the draws are. *)
Theorem isprime_known_values (src : RandomSource) (i : nat) :
  in_range src ->
  Forall (fun n => exists i', isprime src n isprime_default_k i = Ret (true, i'))
         [2; 3; 5; 7; 97; 7919]
  /\ Forall (fun n => exists i', isprime src n isprime_default_k i = Ret (false, i'))
            [4; 9; 100; 7920].
Proof.
  intros Hsrc. split.
  - repeat (apply List.Forall_cons;
            [apply isprime_prime; [|exact Hsrc];
             apply prime_by_factors; [lia | vm_compute; reflexivity]|]).
    apply List.Forall_nil.
  - apply List.Forall_cons.
    { eexists. apply isprime_fermat_reject; [lia | exact Hsrc|].
      vm_compute. reflexivity. }
    apply List.Forall_cons.
    { apply (isprime_round_reject src 9 3 1); [lia | exact Hsrc | |].
      - reflexivity.
      - vm_compute. reflexivity. }
    apply List.Forall_cons.
    { eexists. apply isprime_fermat_reject; [lia | exact Hsrc|].
      vm_compute. reflexivity. }
    apply List.Forall_cons; [|apply List.Forall_nil].
    eexists. apply isprime_fermat_reject; [lia | exact Hsrc|].
    vm_compute. reflexivity.
Qed.

Lemma isprime_known_values_witness :
  Forall (fun n => exists i',
            isprime (fun _ lo _ => lo) n isprime_default_k 0%nat
            = Ret (true, i'))
         [2; 3; 5; 7; 97; 7919]
  /\ Forall (fun n => exists i',
               isprime (fun _ lo _ => lo) n isprime_default_k 0%nat
               = Ret (false, i'))
            [4; 9; 100; 7920].
Proof.
  apply (isprime_known_values (fun _ lo _ => lo) 0%nat).
  intros i lo hi H. lia.
Defined.

(** ** Random primes *)

Lemma randprime_loop_S (src : RandomSource) (fuel i N : nat) (a b : Z) :
  randprime_loop src (S fuel) i N a b =
  if (i <? N)%nat then
    candidate ← rand src a b;
    if Z.abs candidate <? 2 then randprime_loop src fuel (S i) N a b
    else if Z.abs candidate =? 2 then mret (Accepted candidate)
    else
      x ← rand src 2 (candidate - 1);
      f ← lift (modpow x (candidate - 1) candidate);
      if negb (f =? 1) then randprime_loop src fuel (S i) N a b
      else
        accepted ← isprime src candidate isprime_default_k;
        if accepted : bool then mret (Accepted candidate)
        else randprime_loop src fuel (S i) N a b
  else mret (Exhausted i).
Proof. reflexivity. Qed.




(** A candidate below -2 makes the Fermat pre-test ask [rand] for the
    empty range [[2, candidate - 1]] and call [modpow] with a negative
    exponent and modulus: whatever [rand] hands back, [modpow]'s
    out-of-range error leaves [randprime]. *)
Lemma randprime_negative_draw (src : RandomSource) (a b : Z) (N st : nat) :
  a <= b -> (0 < N)%nat -> src st a b <= -3 ->
  randprime src a b N st = Throw (mkException "qpp::modpow()" OUT_OF_RANGE).
Proof.
  intros Hab HN Hc. unfold randprime.
  destruct (Z.ltb_spec b a); [lia|].
  rewrite bind_Rand, randprime_loop_S.
  destruct (Nat.ltb_spec 0 N); [|lia].
  rewrite bind_rand.
  destruct (Z.ltb_spec (Z.abs (src st a b)) 2); [lia|].
  destruct (Z.eqb_spec (Z.abs (src st a b)) 2); [lia|].
  rewrite bind_rand, bind_lift. unfold modpow.
  destruct (Z.ltb_spec (src st a b - 1) 0); [|lia].
  rewrite orb_true_r. reflexivity.
Qed.

(** C10 fails on the code: with the interval [[-7, -7]] every candidate is
    -7, and [randprime] neither returns a candidate nor throws
    "Prime not found!"; it lets the out-of-range error of [modpow]
    through. *)
Theorem randprime_negative_interval_throws
        (src : RandomSource) (N st : nat) :
  in_range src -> (0 < N)%nat ->
  randprime src (-7) (-7) N st
  = Throw (mkException "qpp::modpow()" OUT_OF_RANGE).
Proof.
  intros Hsrc HN. apply randprime_negative_draw; [lia | exact HN|].
  pose proof (Hsrc st (-7) (-7) ltac:(lia)). lia.
Qed.

Lemma randprime_negative_interval_throws_witness :
  randprime (fun _ lo _ => lo) (-7) (-7) randprime_default_N 0%nat
  = Throw (mkException "qpp::modpow()" OUT_OF_RANGE).
Proof.
  apply (randprime_negative_interval_throws (fun _ lo _ => lo)).
  - intros i lo hi H. lia.
  - unfold randprime_default_N. lia.
Defined.





(** * Further properties of the code *)

(** ** [gcd] and [lcm] *)

Example gcd_list_12_18_30 : gcd_list [12; -18; 30] = Ret 6.
Proof. reflexivity. Qed.

Example lcm_list_4_6_10 : lcm_list [4; -6; 10] = Ret 60.
Proof. reflexivity. Qed.

Example gcd_list_leading_zeros :
  gcd_list [0; 0; 5] = Throw (mkException "qpp::gcd()" OUT_OF_RANGE)
  /\ gcd_list [0; 5; 0] = Ret 5.
Proof. split; reflexivity. Qed.





(** ** [gcd] and [lcm] of a list *)







(** ** [modinv], [modpow] and how they fit together *)

(** Modulo [p > 1] the inverse of [a] within (0, p) is unique, and it is
    what [modinv] returns. *)
Lemma modinv_unique_inverse (a p w : Z) :
  0 < a -> 1 < p -> 0 < w < p -> (a * w) mod p = 1 ->
  modinv a p = Ret w.
Proof.
  intros Ha Hp Hw Haw.
  assert (Hg : Z.gcd a p = 1).
  { apply Z.Bezout_coprime_iff. exists w, (- (a * w / p)).
    pose proof (Z.div_mod (a * w) p ltac:(lia)). lia. }
  destruct (modinv_coprime a p Ha Hp Hg) as (v & Ev & Hv & Hav).
  rewrite Ev. f_equal.
  rewrite Z.rem_mod_nonneg in Hav by nia.
  assert (Hdiv : (p | a * (v - w))).
  { apply Z.mod_divide; [lia|].
    rewrite Z.mul_sub_distr_l, Zminus_mod, Hav, Haw. reflexivity. }
  apply Z.gauss in Hdiv; [|rewrite Z.gcd_comm; exact Hg].
  destruct Hdiv as [q Hq].
  assert (q = 0) by (destruct (Z_lt_le_dec q 0), (Z_lt_le_dec 0 q); nia).
  subst q. lia.
Qed.


(** Inverting twice gives the argument back, reduced modulo [p]. *)
Theorem modinv_round_trip (a p : Z) :
  0 < a -> 1 < p -> Z.gcd a p = 1 ->
  exists v, modinv a p = Ret v /\ modinv v p = Ret (a mod p).
Proof.
  intros Ha Hp Hg.
  destruct (modinv_coprime a p Ha Hp Hg) as (v & Ev & Hv & Hav).
  exists v. split; [exact Ev|].
  rewrite Z.rem_mod_nonneg in Hav by nia.
  pose proof (Z.mod_pos_bound a p ltac:(lia)) as Hm.
  apply modinv_unique_inverse; try lia.
  - assert (a mod p <> 0); [|lia].
    intros E0. rewrite <- Zmult_mod_idemp_l, E0, Z.mod_0_l in Hav; lia.
  - rewrite Zmult_mod_idemp_r, Z.mul_comm. exact Hav.
Qed.

Lemma modinv_round_trip_witness :
  exists v, modinv 10 7 = Ret v /\ modinv v 7 = Ret (10 mod 7).
Proof. apply (modinv_round_trip 10 7); [lia | lia | reflexivity]. Defined.







(** ** [factors] as the prime factorisation *)













(** ** The algebra of [invperm] and [compperm] *)

Lemma check_perm_is_perm (p : list nat) :
  internal._check_perm p = true <-> is_perm p.
Proof. apply check_perm_spec. Qed.

Lemma check_perm_not_perm (p : list nat) :
  ~ is_perm p -> internal._check_perm p = false.
Proof.
  intros Hn. destruct (internal._check_perm p) eqn:E; [|reflexivity].
  apply check_perm_is_perm in E. contradiction.
Qed.

Lemma is_perm_seq (n : nat) : is_perm (seq 0 n).
Proof.
  split; [|apply NoDup_seq].
  apply Forall_forall. intros x Hx. apply elem_of_seq in Hx.
  rewrite length_seq. lia.
Qed.

(** Lists of the same length with the same entries are equal. *)
Lemma list_eq_total (l1 l2 : list nat) :
  length l1 = length l2 ->
  (forall i, (i < length l1)%nat -> l1 !!! i = l2 !!! i) -> l1 = l2.
Proof.
  intros Hlen Hext.
  apply (list_eq_same_length _ _ (length l1)); [congruence | reflexivity|].
  intros i x y Hi Hx Hy.
  apply list_lookup_total_correct in Hx, Hy.
  rewrite <- Hx, <- Hy. apply Hext, Hi.
Qed.

(** What [invperm] builds from a permutation. *)
Lemma invperm_spec (p : list nat) :
  is_perm p ->
  exists q, invperm p = Ret q
    /\ length q = length p /\ is_perm q
    /\ (forall j, (j < length p)%nat -> q !!! (p !!! j) = j)
    /\ (forall i, (i < length p)%nat -> p !!! (q !!! i) = i).
Proof.
  intros Hperm. pose proof Hperm as [Hrange Hnodup].
  unfold invperm. rewrite (proj2 (check_perm_is_perm p) Hperm). cbn [negb].
  set (q := foldl _ _ _).
  destruct (scatter_prefix p (replicate (length p) 0%nat) (length p))
    as [Hlen Hq]; try assumption.
  { apply length_replicate. }
  { lia. }
  fold q in Hlen, Hq.
  assert (Hqp : forall j, (j < length p)%nat -> q !!! (p !!! j) = j).
  { intros j Hj. apply list_lookup_total_correct, Hq, Hj. }
  assert (Hpq : forall i, (i < length p)%nat -> p !!! (q !!! i) = i).
  { intros i Hi.
    destruct (perm_surjective p i Hrange Hnodup Hi) as (j & Hj & <-).
    rewrite Hqp by exact Hj. reflexivity. }
  exists q. split; [reflexivity|]. split; [exact Hlen|].
  split; [|split; assumption].
  split.
  - apply (proj2 (@Forall_lookup_total
                    nat (fun x => (x < length q)%nat) _ q)).
    rewrite Hlen. intros i Hi.
    destruct (perm_surjective p i Hrange Hnodup Hi) as (j & Hj & <-).
    rewrite Hqp by exact Hj. exact Hj.
  - apply NoDup_alt. intros a b x Ha Hb.
    pose proof (lookup_lt_Some _ _ _ Ha) as Hla.
    pose proof (lookup_lt_Some _ _ _ Hb) as Hlb.
    rewrite Hlen in Hla, Hlb.
    apply list_lookup_total_correct in Ha, Hb.
    rewrite <- (Hpq a Hla), <- (Hpq b Hlb), Ha, Hb. reflexivity.
Qed.

Lemma is_perm_lookup (p : list nat) (i : nat) :
  is_perm p -> (i < length p)%nat -> (p !!! i < length p)%nat.
Proof.
  intros [Hrange _] Hi.
  apply (proj1 (@Forall_lookup_total
                  nat (fun x => (x < length p)%nat) _ p) Hrange), Hi.
Qed.

Lemma is_perm_injective (p : list nat) (i j : nat) :
  is_perm p -> (i < length p)%nat -> (j < length p)%nat ->
  p !!! i = p !!! j -> i = j.
Proof.
  intros [_ Hnodup] Hi Hj E.
  apply (proj1 (NoDup_alt p) Hnodup i j (p !!! i)).
  - apply list_lookup_lookup_total_lt, Hi.
  - rewrite E. apply list_lookup_lookup_total_lt, Hj.
Qed.

(** What [compperm] builds from two permutations of the same length. *)
Lemma compperm_spec (p s : list nat) :
  is_perm p -> is_perm s -> length p = length s ->
  exists r, compperm p s = Ret r
    /\ length r = length p /\ is_perm r
    /\ (forall i, (i < length p)%nat -> r !!! i = p !!! (s !!! i)).
Proof.
  intros Hp Hs Hlen. unfold compperm.
  rewrite (proj2 (check_perm_is_perm p) Hp), (proj2 (check_perm_is_perm s) Hs).
  rewrite Hlen, Nat.eqb_refl. cbn [negb].
  set (r := foldl _ _ _).
  destruct (fill_prefix (fun i => p !!! (s !!! i))
              (replicate (length s) 0%nat) (length s)) as [Hr Hlook].
  { rewrite length_replicate. lia. }
  fold r in Hr, Hlook. rewrite length_replicate in Hr.
  assert (Hval : forall i, (i < length s)%nat -> r !!! i = p !!! (s !!! i)).
  { intros i Hi. apply list_lookup_total_correct, Hlook, Hi. }
  exists r. split; [reflexivity|]. split; [exact Hr|].
  split; [|exact Hval].
  split.
  - apply (proj2 (@Forall_lookup_total
                    nat (fun x => (x < length r)%nat) _ r)).
    rewrite Hr. intros i Hi. rewrite Hval by exact Hi.
    rewrite <- Hlen. apply is_perm_lookup; [exact Hp|].
    rewrite Hlen. apply is_perm_lookup; assumption.
  - apply NoDup_alt. intros a b x Ha Hb.
    pose proof (lookup_lt_Some _ _ _ Ha) as Hla.
    pose proof (lookup_lt_Some _ _ _ Hb) as Hlb.
    rewrite Hr in Hla, Hlb.
    apply list_lookup_total_correct in Ha, Hb.
    rewrite Hval in Ha, Hb by assumption.
    apply (is_perm_injective s); try assumption.
    apply (is_perm_injective p); try assumption.
    + rewrite Hlen. apply is_perm_lookup; assumption.
    + rewrite Hlen. apply is_perm_lookup; assumption.
    + congruence.
Qed.

(** [invperm] returns normally exactly on the permutations; what it
    returns is again a permutation of the same length, and it sends each
    value [p[j]] back to [j]. *)
Theorem invperm_characterised (p : list nat) :
  (is_perm p ->
   exists q, invperm p = Ret q /\ is_perm q /\ length q = length p
     /\ forall j, (j < length p)%nat -> q !!! (p !!! j) = j)
  /\ (~ is_perm p ->
      invperm p = Throw (mkException "qpp::invperm()" PERM_INVALID)).
Proof.
  split.
  - intros Hp. destruct (invperm_spec p Hp) as (q & E & Hlen & Hq & Hqp & _).
    exists q. auto.
  - intros Hn. unfold invperm. rewrite check_perm_not_perm by exact Hn.
    reflexivity.
Qed.

Lemma invperm_characterised_witness :
  exists q, invperm [2; 0; 3; 1]%nat = Ret q /\ is_perm q
    /\ length q = length [2; 0; 3; 1]%nat
    /\ forall j, (j < length [2; 0; 3; 1]%nat)%nat ->
         q !!! ([2; 0; 3; 1]%nat !!! j) = j.
Proof.
  apply (proj1 (invperm_characterised [2; 0; 3; 1]%nat)).
  apply check_perm_is_perm. reflexivity.
Defined.

(** Inverting twice gives the permutation back. *)
Theorem invperm_involution (p : list nat) :
  is_perm p -> exists q, invperm p = Ret q /\ invperm q = Ret p.
Proof.
  intros Hp.
  destruct (invperm_spec p Hp) as (q & E & Hlen & Hq & Hqp & Hpq).
  exists q. split; [exact E|].
  destruct (invperm_spec q Hq) as (q' & E' & Hlen' & _ & Hq'q & _).
  rewrite E'. f_equal. apply list_eq_total; [congruence|].
  intros i Hi. rewrite Hlen', Hlen in Hi.
  rewrite <- (Hqp i Hi) at 1. apply Hq'q. rewrite Hlen.
  apply is_perm_lookup; assumption.
Qed.

Lemma invperm_involution_witness :
  exists q, invperm [2; 0; 3; 1]%nat = Ret q
            /\ invperm q = Ret [2; 0; 3; 1]%nat.
Proof.
  apply (invperm_involution [2; 0; 3; 1]%nat).
  apply check_perm_is_perm. reflexivity.
Defined.

(** [compperm] returns normally exactly on two permutations of the same
    length; what it returns is again a permutation, with
    [result[i] = perm[sigma[i]]]. *)
Theorem compperm_characterised (p s : list nat) :
  (is_perm p /\ is_perm s /\ length p = length s ->
   exists r, compperm p s = Ret r /\ is_perm r /\ length r = length p
     /\ forall i, (i < length p)%nat -> r !!! i = p !!! (s !!! i))
  /\ (~ (is_perm p /\ is_perm s /\ length p = length s) ->
      compperm p s = Throw (mkException "qpp::compperm()" PERM_INVALID)).
Proof.
  split.
  - intros (Hp & Hs & Hlen).
    destruct (compperm_spec p s Hp Hs Hlen) as (r & E & Hr & Hperm & Hval).
    exists r. auto.
  - intros Hn. unfold compperm.
    destruct (internal._check_perm p) eqn:Ep; [|reflexivity].
    destruct (internal._check_perm s) eqn:Es; [|reflexivity].
    destruct (Nat.eqb_spec (length p) (length s)) as [Hlen|]; [|reflexivity].
    exfalso. apply Hn. rewrite <- !check_perm_is_perm. auto.
Qed.

Lemma compperm_characterised_witness :
  exists r, compperm [2; 0; 1]%nat [1; 0; 2]%nat = Ret r /\ is_perm r
    /\ length r = length [2; 0; 1]%nat
    /\ forall i, (i < length [2; 0; 1]%nat)%nat ->
         r !!! i = [2; 0; 1]%nat !!! ([1; 0; 2]%nat !!! i).
Proof.
  apply (proj1 (compperm_characterised [2; 0; 1]%nat [1; 0; 2]%nat)).
  split; [|split]; [apply check_perm_is_perm | apply check_perm_is_perm |];
    reflexivity.
Defined.

(** Composition is associative. *)
Theorem compperm_assoc (p s t : list nat) :
  is_perm p -> is_perm s -> is_perm t ->
  length p = length s -> length s = length t ->
  exists ps st r,
    compperm p s = Ret ps /\ compperm s t = Ret st
    /\ compperm ps t = Ret r /\ compperm p st = Ret r.
Proof.
  intros Hp Hs Ht Hps Hst.
  destruct (compperm_spec p s Hp Hs Hps) as (ps & Eps & Lps & Pps & Vps).
  destruct (compperm_spec s t Hs Ht Hst) as (st & Est & Lst & Pst & Vst).
  destruct (compperm_spec ps t Pps Ht ltac:(congruence))
    as (r1 & E1 & L1 & _ & V1).
  destruct (compperm_spec p st Hp Pst ltac:(congruence))
    as (r2 & E2 & L2 & _ & V2).
  exists ps, st, r1. repeat (split; [assumption|]).
  rewrite E2. f_equal. apply list_eq_total; [congruence|].
  intros i Hi. rewrite L2 in Hi.
  assert (Hti : (t !!! i < length p)%nat).
  { rewrite Hps, Hst. apply is_perm_lookup; [exact Ht | lia]. }
  rewrite V2, Vst, V1, Vps by lia. reflexivity.
Qed.

Lemma compperm_assoc_witness :
  exists ps st r,
    compperm [2; 0; 1]%nat [1; 0; 2]%nat = Ret ps
    /\ compperm [1; 0; 2]%nat [0; 2; 1]%nat = Ret st
    /\ compperm ps [0; 2; 1]%nat = Ret r
    /\ compperm [2; 0; 1]%nat st = Ret r.
Proof.
  apply (compperm_assoc [2; 0; 1]%nat [1; 0; 2]%nat [0; 2; 1]%nat);
    try reflexivity; apply check_perm_is_perm; reflexivity.
Defined.

(** The identity permutation is neutral for composition on both sides. *)
Theorem compperm_identity (p : list nat) :
  is_perm p ->
  compperm p (seq 0 (length p)) = Ret p
  /\ compperm (seq 0 (length p)) p = Ret p.
Proof.
  intros Hp. pose proof (is_perm_seq (length p)) as Hid.
  assert (Hlen : length p = length (seq 0 (length p)))
    by (rewrite length_seq; reflexivity).
  assert (Hseq : forall i, (i < length p)%nat -> seq 0 (length p) !!! i = i).
  { intros i Hi. apply list_lookup_total_correct.
    rewrite lookup_seq_lt by exact Hi. reflexivity. }
  destruct (compperm_spec p _ Hp Hid Hlen) as (r1 & -> & L1 & _ & V1).
  destruct (compperm_spec _ p Hid Hp (eq_sym Hlen)) as (r2 & -> & L2 & _ & V2).
  rewrite length_seq in L2, V2.
  split; f_equal; apply list_eq_total; try assumption.
  - intros i Hi. rewrite L1 in Hi. rewrite V1, Hseq by exact Hi. reflexivity.
  - intros i Hi. rewrite L2 in Hi. rewrite V2 by exact Hi.
    apply Hseq, is_perm_lookup; assumption.
Qed.

Lemma compperm_identity_witness :
  compperm [2; 0; 3; 1]%nat (seq 0 (length [2; 0; 3; 1]%nat))
  = Ret [2; 0; 3; 1]%nat
  /\ compperm (seq 0 (length [2; 0; 3; 1]%nat)) [2; 0; 3; 1]%nat
     = Ret [2; 0; 3; 1]%nat.
Proof.
  apply (compperm_identity [2; 0; 3; 1]%nat).
  apply check_perm_is_perm. reflexivity.
Defined.

(** The inverse of a composition is the composition of the inverses in
    the opposite order. *)
Theorem invperm_compperm (p s : list nat) :
  is_perm p -> is_perm s -> length p = length s ->
  exists r q qs qp,
    compperm p s = Ret r /\ invperm r = Ret q
    /\ invperm s = Ret qs /\ invperm p = Ret qp
    /\ compperm qs qp = Ret q.
Proof.
  intros Hp Hs Hlen.
  destruct (compperm_spec p s Hp Hs Hlen) as (r & Er & Lr & Pr & Vr).
  destruct (invperm_spec r Pr) as (q & Eq & Lq & Pq & Hqr & Hrq).
  destruct (invperm_spec s Hs) as (qs & Eqs & Lqs & Pqs & Hqs & Hsq).
  destruct (invperm_spec p Hp) as (qp & Eqp & Lqp & Pqp & Hqp & Hpq).
  destruct (compperm_spec qs qp Pqs Pqp ltac:(congruence))
    as (c & Ec & Lc & _ & Vc).
  exists r, q, qs, qp. repeat (split; [assumption|]).
  rewrite Ec. f_equal. apply list_eq_total; [congruence|].
  intros i Hi. rewrite Lc, Lqs, <- Hlen in Hi.
  rewrite Vc by congruence.
  assert (Hqi : (q !!! i < length p)%nat).
  { rewrite <- Lr, <- Lq. apply is_perm_lookup; [exact Pq | congruence]. }
  assert (Hsq' : (s !!! (q !!! i) < length p)%nat).
  { rewrite Hlen. apply is_perm_lookup; [exact Hs | congruence]. }
  assert (Ei : p !!! (s !!! (q !!! i)) = i).
  { rewrite <- Vr by exact Hqi. apply Hrq. congruence. }
  rewrite <- Ei at 1. rewrite Hqp by exact Hsq'.
  apply Hqs. congruence.
Qed.

Lemma invperm_compperm_witness :
  exists r q qs qp,
    compperm [2; 0; 1]%nat [1; 0; 2]%nat = Ret r /\ invperm r = Ret q
    /\ invperm [1; 0; 2]%nat = Ret qs /\ invperm [2; 0; 1]%nat = Ret qp
    /\ compperm qs qp = Ret q.
Proof.
  apply (invperm_compperm [2; 0; 1]%nat [1; 0; 2]%nat);
    try reflexivity; apply check_perm_is_perm; reflexivity.
Defined.

(** ** Continued fractions *)

Lemma take_lookup_total (cf : list Z) (n i : nat) :
  (i < n)%nat -> take n cf !!! i = cf !!! i.
Proof.
  intros Hi. rewrite lookup_total_take.
  destruct (decide (i < n)%nat); [reflexivity | lia].
Qed.

Lemma contfrac2x_loop_take (cf : list Z) (n : nat) : forall i tmp,
  (i < n)%nat ->
  contfrac2x_loop (take n cf) i tmp = contfrac2x_loop cf i tmp.
Proof.
  induction i as [|i IH]; intros tmp Hi; [reflexivity|].
  cbn [contfrac2x_loop]. rewrite take_lookup_total by exact Hi.
  apply IH. lia.
Qed.

(** Asking [contfrac2x] for [n] terms is evaluating the fraction cut after
    its first [n] terms with the overload that takes every term; in
    particular the two overloads agree as soon as [n] is at least the
    number of terms. *)
Theorem contfrac2x_truncates (cf : list Z) (n : nat) :
  cf <> [] -> n <> 0%nat ->
  contfrac2x cf n = contfrac2x_all (take n cf)
  /\ ((length cf <= n)%nat -> contfrac2x cf n = contfrac2x_all cf).
Proof.
  intros Hcf Hn.
  assert (Hlen : (0 < length cf)%nat) by (destruct cf; [congruence | cbn; lia]).
  assert (Hge : (length cf <= n)%nat -> contfrac2x cf n = contfrac2x_all cf).
  { intros Hle. unfold contfrac2x, contfrac2x_all. cbv zeta.
    destruct (Nat.eqb_spec (length cf) 0); [lia|].
    destruct (Nat.eqb_spec n 0); [lia|].
    destruct (Nat.ltb_spec (length cf) n); [reflexivity|].
    replace n with (length cf) by lia. reflexivity. }
  split; [|exact Hge].
  destruct (Nat.le_gt_cases (length cf) n) as [Hle|Hgt].
  - rewrite take_ge by exact Hle. apply Hge, Hle.
  - unfold contfrac2x, contfrac2x_all. cbv zeta.
    rewrite length_take_le by lia.
    destruct (Nat.eqb_spec (length cf) 0); [lia|].
    destruct (Nat.eqb_spec n 0); [lia|].
    destruct (Nat.ltb_spec (length cf) n); [lia|].
    rewrite take_lookup_total by lia.
    destruct (Nat.eqb_spec n 1); [reflexivity|].
    rewrite take_lookup_total, contfrac2x_loop_take by lia. reflexivity.
Qed.

Lemma contfrac2x_truncates_witness :
  contfrac2x [3; 4; 12; 4] 2 = contfrac2x_all (take 2 [3; 4; 12; 4])
  /\ ((length [3; 4; 12; 4] <= 2)%nat ->
      contfrac2x [3; 4; 12; 4] 2 = contfrac2x_all [3; 4; 12; 4]).
Proof.
  apply (contfrac2x_truncates [3; 4; 12; 4] 2); [discriminate | lia].
Defined.

(** ** [isprime] and [randprime] *)









Lemma randprime_loop_no_candidate (src : RandomSource) (N : nat) (a b : Z) :
  in_range src -> -1 <= a -> a <= b -> b <= 1 ->
  forall (fuel i st : nat), (i <= N)%nat -> (N - i < fuel)%nat ->
  randprime_loop src fuel i N a b st = Ret (Exhausted N, (st + (N - i))%nat).
Proof.
  intros Hsrc Ha Hab Hb.
  induction fuel as [|fuel IH]; intros i st Hi Hfuel; [lia|].
  rewrite randprime_loop_S. destruct (Nat.ltb_spec i N) as [Hlt|Hge].
  - rewrite bind_rand. pose proof (Hsrc st a b Hab) as Hc.
    destruct (Z.ltb_spec (Z.abs (src st a b)) 2); [|lia].
    rewrite IH by lia. do 2 f_equal. lia.
  - rewrite mret_Rand. do 2 f_equal; [f_equal|]; lia.
Qed.

(** On an interval that holds no number of absolute value 2 or more,
    [randprime] draws [N] candidates and then throws "Prime not found!". *)
Theorem randprime_no_candidate (src : RandomSource) (a b : Z) (N st : nat) :
  in_range src -> -1 <= a -> a <= b -> b <= 1 ->
  randprime src a b N st
  = Throw (mkException "qpp::randprime()"
             (CUSTOM_EXCEPTION "Prime not found!")).
Proof.
  intros Hsrc Ha Hab Hb. unfold randprime.
  destruct (Z.ltb_spec b a); [lia|].
  rewrite bind_Rand, (randprime_loop_no_candidate src N a b) by (assumption || lia).
  rewrite Nat.eqb_refl. reflexivity.
Qed.

Lemma randprime_no_candidate_witness :
  randprime (fun _ lo _ => lo) (-1) 1 randprime_default_N 0%nat
  = Throw (mkException "qpp::randprime()"
             (CUSTOM_EXCEPTION "Prime not found!")).
Proof.
  apply (randprime_no_candidate (fun _ lo _ => lo) (-1) 1); try lia.
  intros i lo hi H. lia.
Defined.



(** ** Size of the co-factors of [egcd] *)

(** For [m >= 2] and [n >= 1] the co-factor of [n] that [egcd] returns is
    smaller than [m] in absolute value. *)
Theorem egcd_cofactor_bound (m n : Z) :
  2 <= m -> 1 <= n ->
  exists a b c, egcd m n = Ret (a, b, c) /\ Z.abs b < m.
Proof.
  intros Hm Hn. unfold egcd.
  destruct (Z.eqb_spec m 0); [lia|]. cbn [andb].
  destruct (egcd_loop_spec m n (S (Z.abs_nat n)) m n 0 1 1 0)
    as (c & a & b & E & _ & _); [|ring|ring|].
  { rewrite Nat2Z.inj_succ, Zabs2Nat.id_abs. lia. }
  assert (Hb : Z.abs b < m).
  { refine (egcd_loop_bound m _ _ _ _ _ _ _ _ _ _ _ _ _ _ _ _ _ E); lia. }
  rewrite E. cbn. destruct (c <? 0).
  - exists (- a), (- b), (- c). split; [reflexivity | lia].
  - exists a, b, c. split; [reflexivity | exact Hb].
Qed.

Lemma egcd_cofactor_bound_witness :
  exists a b c, egcd 240 46 = Ret (a, b, c) /\ Z.abs b < 240.
Proof. apply (egcd_cofactor_bound 240 46); lia. Defined.
